(** * Youtube-Whisper: the URL validator and the transcription orchestrator

    A shallow embedding of [app.py].

    - Python [str] values are Rocq [string]s: the sequence of bytes of the
      text's UTF-8 encoding.  The pattern of [is_valid_youtube_url] only
      mentions ASCII characters and the class [.] (anything but a line feed),
      so matching byte by byte and matching code point by code point accept
      the same strings.
    - [re.match] is embedded as a backtracking matcher over the syntax tree
      of the pattern; only the existence of a match is observed by the code
      ([... is not None]).
    - The stateful part runs in a state-and-exception monad over a [world]:
      the file system, the module-level [models] dictionary, and a log of
      the observable events (progress reports, prints, collaborator calls,
      file writes and removals).
    - The three external collaborators ([download_mp3_yt_dlp],
      [whisper.load_model] and the model's [transcribe]) are the fields of
      the class [Collaborators]: arbitrary functions that may raise and may
      read and change the disk.  A fault is an instance of [Exception], the
      class both [except] clauses catch.
    - The disk maps the absolute path of a regular file to its bytes.  A
      path is resolved before it is used: [abspath p] is the absolute,
      normalised spelling of [p] (what [os.path.abspath] returns), so that
      [x], [./x] and the full path of [x] name one file.  The disk has no
      links (one absolute path per file), and writing and removing succeed
      (no directories, permissions or full disks).  Text is written as it
      is: [encoding="utf-8"] stores the bytes a [string] stands for, and
      line feeds are not translated (POSIX).
    - [abspath] and [repr] (Python's rendering of a [str], which [str(e)]
      uses for the key of a [KeyError] and for a file name) belong to the
      platform and are taken as given, beside the collaborators. *)

From Stdlib Require Import Ascii String Bool Arith Lia.
From stdpp Require Import base option list gmap strings fin_maps.

(** ** Strings *)

(** The line feed character, [\n]. *)
Definition LF : ascii := ascii_of_nat 10.

Abbreviation slen := String.length.

(** [s.startswith(p)], returning what follows the prefix. *)
Fixpoint strip_prefix (p s : string) : option string :=
  match p with
  | EmptyString => Some s
  | String a p' =>
      match s with
      | EmptyString => None
      | String b s' => if Ascii.eqb a b then strip_prefix p' s' else None
      end
  end.

(** No character of [s] is a line feed. *)
Fixpoint no_newline (s : string) : bool :=
  match s with
  | EmptyString => true
  | String c s' => negb (Ascii.eqb c LF) && no_newline s'
  end.

(** ** Regular expressions, as far as [youtube_regex] needs them *)

Module Re.

Inductive regex : Type :=
| Bol                       (* ^  : start of the string *)
| Eol                       (* $  : end, or just before a final line feed *)
| Lit (s : string)          (* literal characters *)
| Dot                       (* .  : any character but a line feed *)
| Seq (r1 r2 : regex)
| Alt (r1 r2 : regex)       (* r1|r2 *)
| Opt (r : regex)           (* r? *)
| Plus (r : regex).         (* r+ *)

(** [$] without [re.MULTILINE]. *)
Definition at_end (s : string) : bool :=
  match s with
  | EmptyString => true
  | String c EmptyString => Ascii.eqb c LF
  | _ => false
  end.

(** Backtracking matcher in continuation-passing style: [run r pos s k] tries
    every way [r] can match a prefix of [s] (which starts at offset [pos] of
    the subject) and hands the new offset and the rest to [k].  Repetition is
    greedy, as in Python; the iteration count of [r+] is bounded by the
    length of what is left, since an iteration that consumes nothing cannot
    help. *)
Fixpoint run (r : regex) (pos : nat) (s : string)
    (k : nat → string → bool) {struct r} : bool :=
  match r with
  | Bol => Nat.eqb pos 0 && k pos s
  | Eol => at_end s && k pos s
  | Lit p =>
      match strip_prefix p s with
      | Some s' => k (pos + slen p) s'
      | None => false
      end
  | Dot =>
      match s with
      | String c s' => negb (Ascii.eqb c LF) && k (S pos) s'
      | EmptyString => false
      end
  | Seq r1 r2 => run r1 pos s (fun pos' s' => run r2 pos' s' k)
  | Alt r1 r2 => run r1 pos s k || run r2 pos s k
  | Opt r1 => run r1 pos s k || k pos s
  | Plus r1 =>
      (fix loop (fuel : nat) (pos : nat) (s : string) {struct fuel} : bool :=
         match fuel with
         | O => false
         | S fuel' =>
             run r1 pos s (fun pos' s' => loop fuel' pos' s' || k pos' s')
         end) (S (slen s)) pos s
  end.

(** The repetition of [run (Plus r)], under a name. *)
Definition plus_loop (r : regex) (k : nat → string → bool)
    : nat → nat → string → bool :=
  fix loop (fuel : nat) (pos : nat) (s : string) {struct fuel} : bool :=
    match fuel with
    | O => false
    | S fuel' =>
        run r pos s (fun pos' s' => loop fuel' pos' s' || k pos' s')
    end.

(** [re.match(r, s) is not None]: a match anchored at offset 0, which need
    not reach the end of [s]. *)
Definition re_match (r : regex) (s : string) : bool :=
  run r 0 s (fun _ _ => true).

(** Declarative reading: [matches r pos m rest] says that [r] matches the
    characters [m] at offset [pos] when [rest] follows them. *)
Inductive matches : regex → nat → string → string → Prop :=
| M_bol rest : matches Bol 0 "" rest
| M_eol pos rest : at_end rest = true → matches Eol pos "" rest
| M_lit p pos rest : matches (Lit p) pos p rest
| M_dot c pos rest : c ≠ LF → matches Dot pos (String c "") rest
| M_seq r1 r2 pos m1 m2 rest :
    matches r1 pos m1 (m2 +:+ rest) →
    matches r2 (pos + slen m1) m2 rest →
    matches (Seq r1 r2) pos (m1 +:+ m2) rest
| M_alt_l r1 r2 pos m rest : matches r1 pos m rest → matches (Alt r1 r2) pos m rest
| M_alt_r r1 r2 pos m rest : matches r2 pos m rest → matches (Alt r1 r2) pos m rest
| M_opt_some r pos m rest : matches r pos m rest → matches (Opt r) pos m rest
| M_opt_none r pos rest : matches (Opt r) pos "" rest
| M_plus_one r pos m rest : matches r pos m rest → matches (Plus r) pos m rest
| M_plus_more r pos m1 m2 rest :
    matches r pos m1 (m2 +:+ rest) →
    matches (Plus r) (pos + slen m1) m2 rest →
    matches (Plus r) pos (m1 +:+ m2) rest.

(** [consumes r]: every match of [r] takes at least one character. *)
Fixpoint consumes (r : regex) : bool :=
  match r with
  | Bol | Eol | Opt _ => false
  | Lit p => negb (String.eqb p "")
  | Dot => true
  | Seq r1 r2 => consumes r1 || consumes r2
  | Alt r1 r2 => consumes r1 && consumes r2
  | Plus r1 => consumes r1
  end.

(** Every repeated sub-expression consumes: the bound on the iterations of
    [run] then loses no match. *)
Fixpoint productive (r : regex) : bool :=
  match r with
  | Bol | Eol | Lit _ | Dot => true
  | Seq r1 r2 | Alt r1 r2 => productive r1 && productive r2
  | Opt r1 => productive r1
  | Plus r1 => consumes r1 && productive r1
  end.

(** What [run] accepts, [matches] derives. *)
Definition sound_at (r : regex) : Prop :=
  ∀ pos s k, run r pos s k = true →
    ∃ m rest, s = m +:+ rest ∧ matches r pos m rest ∧ k (pos + slen m) rest = true.

(** What [matches] derives, [run] accepts. *)
Definition complete_at (r : regex) : Prop :=
  ∀ pos m rest k, matches r pos m rest → k (pos + slen m) rest = true →
    run r pos (m +:+ rest) k = true.

End Re.

(** ** [is_valid_youtube_url] *)

(** [r"^(https?://)?(www\.)?(youtube\.com|youtu\.?be)/.+$"] *)
Definition youtube_regex : Re.regex :=
  Re.Seq Re.Bol
 (Re.Seq (Re.Opt (Re.Seq (Re.Lit "http") (Re.Seq (Re.Opt (Re.Lit "s")) (Re.Lit "://"))))
 (Re.Seq (Re.Opt (Re.Lit "www."))
 (Re.Seq (Re.Alt (Re.Lit "youtube.com")
                 (Re.Seq (Re.Lit "youtu") (Re.Seq (Re.Opt (Re.Lit ".")) (Re.Lit "be"))))
 (Re.Seq (Re.Lit "/")
 (Re.Seq (Re.Plus Re.Dot)
         Re.Eol))))).

Definition is_valid_youtube_url (url : string) : bool :=
  Re.re_match youtube_regex url.

(** ** Python values, exceptions, and the world the program runs in *)

(** The values that flow through the orchestrator: [None] or a [str]. *)
Inductive pyval : Type :=
| PNone
| PStr (s : string).

Global Instance pyval_eq_dec : EqDecision pyval.
Proof. solve_decision. Defined.

(** Python truthiness: [None] and the empty string are falsy. *)
Definition truthy (v : pyval) : bool :=
  match v with
  | PNone => false
  | PStr EmptyString => false
  | PStr (String _ _) => true
  end.

(** The string of a truthy value (what [if not v: return ...] lets through). *)
Definition as_path (v : pyval) : option string :=
  match v with
  | PStr (String c s) => Some (String c s)
  | _ => None
  end.

(** Instances of [Exception]: one of a collaborator, known by its [str(e)],
    or one the runtime raises for a missing key or a missing file. *)
Inductive exn : Type :=
| Exception (msg : string)
| KeyError (key : string)
| FileNotFoundError (path : string).

Inductive outcome (A : Type) : Type :=
| Ret (a : A)
| Raise (e : exn).
Arguments Ret {A} a.
Arguments Raise {A} e.

(** The file system: absolute path to content. *)
Abbreviation files_t := (gmap string string).

(** What [app.py] is given.  The three external collaborators: each may
    fault and may read and change the file system; nothing else is known
    about them.  And two functions of the platform. *)
Class Collaborators : Type := {
  (** a loaded Whisper model *)
  model : Type;
  (** [os.path.abspath(path)]: the file a path names *)
  abspath : string → string;
  (** [repr(s)] of a [str] *)
  repr : string → string;
  (** [download_video.download_mp3_yt_dlp(url)]: audio path, title, thumbnail *)
  download_mp3_yt_dlp :
    string → files_t → outcome (pyval * pyval * pyval) * files_t;
  (** [whisper.load_model(size)] *)
  load_model : string → files_t → outcome model * files_t;
  (** [model.transcribe(audio_path, **options)], returning the result dict *)
  model_transcribe :
    model → string → gmap string pyval → files_t →
    outcome (gmap string string) * files_t;
}.

(** [str(e)], what an f-string prints: the message of a collaborator's
    exception, the [repr] of the key of a [KeyError], the system's message
    with the [repr] of the file name for a [FileNotFoundError]. *)
Definition exn_str `{C : Collaborators} (e : exn) : string :=
  match e with
  | Exception msg => msg
  | KeyError key => repr key
  | FileNotFoundError path =>
      "[Errno 2] No such file or directory: " +:+ repr path
  end.

Section Program.
Context `{C : Collaborators}.

(** What an observer (or a test with stubbed collaborators) can see happen. *)
Inductive event : Type :=
| EvProgress (pct : nat) (label : string)
| EvPrint (line : string)
| EvDownload (url : string)
| EvLoadModel (size : string)
| EvTranscribe (m : model) (audio_path : string) (options : gmap string pyval)
| EvWrite (path : string) (data : string)
| EvRemove (path : string).

Record world : Type := World {
  files : files_t;                 (* the disk *)
  models : gmap string model;      (* the module-level [models = {}] *)
  log : list event;                (* events so far, oldest first *)
}.

Definition set_files (fs : files_t) (w : world) : world :=
  World fs (models w) (log w).
Definition set_models (ms : gmap string model) (w : world) : world :=
  World (files w) ms (log w).
Definition emit (e : event) (w : world) : world :=
  World (files w) (models w) (log w ++ [e]).

(** The events of [w'] that were not yet in [w]. *)
Definition new_events (w w' : world) : list event :=
  drop (List.length (log w)) (log w').

(** *** The monad: state and exceptions *)

Definition M (A : Type) : Type := world → outcome A * world.

Definition ret {A} (a : A) : M A := λ w, (Ret a, w).
Definition raise {A} (e : exn) : M A := λ w, (Raise e, w).
Definition bind {A B} (c : M A) (k : A → M B) : M B :=
  λ w, match c w with
       | (Ret a, w') => k a w'
       | (Raise e, w') => (Raise e, w')
       end.
(** [try: c  except Exception as e: h e] *)
Definition try_except {A} (c : M A) (h : exn → M A) : M A :=
  λ w, match c w with
       | (Ret a, w') => (Ret a, w')
       | (Raise e, w') => h e w'
       end.

Definition tell (e : event) : M unit := λ w, (Ret tt, emit e w).

(** Reading and updating the module-level dictionary. *)
Definition get_models : M (gmap string model) := λ w, (Ret (models w), w).
Definition store_model (size : string) (m : model) : M unit :=
  λ w, (Ret tt, set_models (<[size := m]> (models w)) w).

(** Running a collaborator: it sees and may change the files only. *)
Definition collaborate {A} (f : files_t → outcome A * files_t) : M A :=
  λ w, let '(o, fs) := f (files w) in (o, set_files fs w).

End Program.

Global Instance M_ret `{C : Collaborators} : MRet M := @ret C.
Global Instance M_bind `{C : Collaborators} : MBind M := λ A B k c, bind c k.

Section Orchestrator.
Context `{C : Collaborators}.

(** *** Primitives of the Python runtime *)

Definition print (line : string) : M unit := tell (EvPrint line).

(** The [progress] callback of Gradio. *)
Definition progress (pct : nat) (label : string) : M unit :=
  tell (EvProgress pct label).

(** [with open(path, "w", encoding="utf-8") as f: f.write(data)]: the file
    that [path] names is created or truncated, then holds [data]. *)
Definition open_w_write (path data : string) : M unit :=
  λ w, (Ret tt,
        emit (EvWrite path data)
          (set_files (<[abspath path := data]> (files w)) w)).

Definition os_path_exists (path : string) : M bool :=
  λ w, (Ret (bool_decide (is_Some (files w !! abspath path))), w).

(** [os.remove(path)]: the file that [path] names is gone, under every
    spelling of its path. *)
Definition os_remove (path : string) : M unit :=
  λ w, match files w !! abspath path with
       | Some _ =>
           (Ret tt,
            emit (EvRemove path)
              (set_files (delete (abspath path) (files w)) w))
       | None => (Raise (FileNotFoundError path), w)
       end.

(** [d[key]] on a dict. *)
Definition getitem {V} (d : gmap string V) (key : string) : M V :=
  match d !! key with
  | Some v => ret v
  | None => raise (KeyError key)
  end.

(** Calls to the collaborators, recorded as they are made. *)
Definition call_download (url : string) : M (pyval * pyval * pyval) :=
  tell (EvDownload url) ;; collaborate (download_mp3_yt_dlp url).

Definition call_load_model (size : string) : M model :=
  tell (EvLoadModel size) ;; collaborate (load_model size).

Definition call_transcribe (m : model) (audio_path : string)
    (options : gmap string pyval) : M (gmap string string) :=
  tell (EvTranscribe m audio_path options) ;;
  collaborate (model_transcribe m audio_path options).

(** *** [download_video_info] *)

Definition download_video_info (youtube_url : string) : M (pyval * pyval * pyval) :=
  if negb (is_valid_youtube_url youtube_url) then
    ret (PNone, PStr "Invalid YouTube URL.", PNone)
  else
    try_except
      ('(audio_path, title, thumbnail_url) ← call_download youtube_url;
       if negb (truthy audio_path) then
         ret (PNone, PStr "Failed to download audio.", PNone)
       else
         ret (audio_path, title, thumbnail_url))
      (λ e,
         print ("Error downloading video info: " +:+ exn_str e) ;;
         ret (PNone, PStr "An error occurred while downloading the video.", PNone)).

(** *** [transcribe_audio] *)

Definition transcribe_audio (audio_path model_size : string) (language : pyval)
    : M string :=
  try_except
    (cache ← get_models;
     (if negb (bool_decide (is_Some (cache !! model_size))) then
        m ← call_load_model model_size;
        store_model model_size m
      else ret tt) ;;
     cache ← get_models;
     m ← getitem cache model_size;
     let options : gmap string pyval :=
       if truthy language then <["language" := language]> ∅ else ∅ in
     result ← call_transcribe m audio_path options;
     getitem result "text")
    (λ e,
       print ("Error during transcription: " +:+ exn_str e) ;;
       ret "An error occurred during transcription.").

(** *** [get_video_info_and_transcribe] *)

Definition transcription_file : string := "transcription.txt".

Definition get_video_info_and_transcribe (youtube_url model_size : string)
    (language : pyval) : M (pyval * pyval * pyval * pyval) :=
  progress 0 "Validating URL..." ;;
  '(audio_path, title, thumbnail_url) ← download_video_info youtube_url;
  match as_path audio_path with
  | None => ret (title, PNone, PStr "", PNone)
  | Some audio_path =>
      progress 50 "Transcribing audio..." ;;
      transcription ← transcribe_audio audio_path model_size language;
      open_w_write transcription_file transcription ;;
      (present ← os_path_exists audio_path;
       if present : bool then os_remove audio_path else ret tt) ;;
      progress 100 "Done" ;;
      ret (title, thumbnail_url, PStr transcription, PStr transcription_file)
  end.

End Orchestrator.

(** ** Sequences of calls, observations and scenarios *)

Record call : Type := Call {
  call_audio : string;
  call_size : string;
  call_language : pyval;
}.

Section Observations.
Context `{C : Collaborators}.

(** One [transcribe_audio] call after the other, in the same process. *)
Fixpoint transcribe_all (cs : list call) : M (list string) :=
  match cs with
  | [] => ret []
  | c :: cs' =>
      t ← transcribe_audio (call_audio c) (call_size c) (call_language c);
      ts ← transcribe_all cs';
      ret (t :: ts)
  end.

(** *** Reading the event log *)

Definition is_fetcher_call (e : event) : bool :=
  match e with EvDownload _ => true | _ => false end.

Definition is_transcriber_call (e : event) : bool :=
  match e with EvLoadModel _ | EvTranscribe _ _ _ => true | _ => false end.

Definition is_load_of (size : string) (e : event) : bool :=
  match e with EvLoadModel s => String.eqb s size | _ => false end.

Definition count_events (f : event → bool) (evs : list event) : nat :=
  List.length (List.filter f evs).

(** *** Scenarios of the collaborators, as the claims name them *)

(** A language was supplied: a non-empty string.  [None] and the empty
    string, which the form sends for an empty language field, supply none. *)
Definition language_supplied (language : pyval) : Prop :=
  ∃ code, language = PStr code ∧ code ≠ "".

(** The model of [size] is at hand: cached, or loaded without a fault. *)
Inductive model_ready (cache : gmap string model) (size : string)
    (fs : files_t) : model → files_t → Prop :=
| Ready_cached m :
    cache !! size = Some m → model_ready cache size fs m fs
| Ready_loaded m fs' :
    cache !! size = None → load_model size fs = (Ret m, fs') →
    model_ready cache size fs m fs'.


(** The Transcriber faults with exception [e]: while loading the model,
    while transcribing, or by a result without text. *)
Inductive transcriber_faults (cache : gmap string model)
    (audio_path size : string) (language : pyval) (fs : files_t)
    (e : exn) (fs' : files_t) : Prop :=
| Faults_load :
    cache !! size = None → load_model size fs = (Raise e, fs') →
    transcriber_faults cache audio_path size language fs e fs'
| Faults_transcribe m fs1 :
    model_ready cache size fs m fs1 →
    model_transcribe m audio_path
      (if truthy language then <["language" := language]> ∅ else ∅) fs1
      = (Raise e, fs') →
    transcriber_faults cache audio_path size language fs e fs'
| Faults_no_text m fs1 result :
    model_ready cache size fs m fs1 →
    model_transcribe m audio_path
      (if truthy language then <["language" := language]> ∅ else ∅) fs1
      = (Ret result, fs') →
    result !! "text" = None → e = KeyError "text" →
    transcriber_faults cache audio_path size language fs e fs'.

(** The Fetcher fails: it raises, or returns a falsy audio path. *)
Definition fetcher_failed (o : outcome (pyval * pyval * pyval)) : Prop :=
  match o with
  | Raise _ => True
  | Ret (audio_path, _, _) => truthy audio_path = false
  end.

(** Deterministic collaborators: what each returns is a function of its
    arguments, whatever the disk holds. *)
Definition deterministic : Prop :=
  (∀ url fs fs', (download_mp3_yt_dlp url fs).1 = (download_mp3_yt_dlp url fs').1) ∧
  (∀ size fs fs', (load_model size fs).1 = (load_model size fs').1) ∧
  (∀ m p o fs fs', (model_transcribe m p o fs).1 = (model_transcribe m p o fs').1).

(** The Fetcher does not touch the output file of the orchestrator. *)
Definition fetcher_spares_output : Prop :=
  ∀ url fs,
    (download_mp3_yt_dlp url fs).2 !! abspath transcription_file =
    fs !! abspath transcription_file.

End Observations.

(** ** Milestones of a run *)

Section Milestones.
Context `{C : Collaborators}.

(** The world in which transcription starts: the start was reported, the
    Fetcher was called and left the disk as [fs], the midpoint was
    reported. *)
Definition fetched (url : string) (fs : files_t) (w : world) : world :=
  emit (EvProgress 50 "Transcribing audio...")
    (set_files fs
       (emit (EvDownload url) (emit (EvProgress 0 "Validating URL...") w))).

(** The output file written in overwrite mode. *)
Definition written (t : string) (w : world) : world :=
  emit (EvWrite transcription_file t)
    (set_files (<[abspath transcription_file := t]> (files w)) w).

(** The audio file removed if it is there. *)
Definition cleaned (audio_path : string) (w : world) : world :=
  match files w !! abspath audio_path with
  | Some _ =>
      emit (EvRemove audio_path)
        (set_files (delete (abspath audio_path) (files w)) w)
  | None => w
  end.

(** The world a run that reached transcription ends in, from the world
    [w] the Transcriber left. *)
Definition finished (audio_path t : string) (w : world) : world :=
  emit (EvProgress 100 "Done") (cleaned audio_path (written t w)).

(** The [except] branch of [transcribe_audio], entered with [e] in [w]. *)
Definition transcription_failed (e : exn) (w : world) : outcome string * world :=
  (Ret "An error occurred during transcription.",
   emit (EvPrint ("Error during transcription: " +:+ exn_str e)) w).

(** What [transcribe_audio] does once the model [m] is at hand. *)
Definition transcribe_with (m : model) (audio_path : string) (language : pyval)
    (w : world) : outcome string * world :=
  let options : gmap string pyval :=
    if truthy language then <["language" := language]> ∅ else ∅ in
  let w1 := emit (EvTranscribe m audio_path options) w in
  match model_transcribe m audio_path options (files w) with
  | (Ret result, fs) =>
      match result !! "text" with
      | Some t => (Ret t, set_files fs w1)
      | None => transcription_failed (KeyError "text") (set_files fs w1)
      end
  | (Raise e, fs) => transcription_failed e (set_files fs w1)
  end.

End Milestones.

(** ** The shapes of URL the specification speaks of *)

(** [scheme? www.? host / tail], the host among [hosts], the tail as
    [tail_ok] wants it. *)
Definition url_shape (hosts : list string) (tail_ok : string → Prop)
    (url : string) : Prop :=
  ∃ scheme www host tail,
    url = scheme +:+ www +:+ host +:+ "/" +:+ tail ∧
    scheme ∈ [""; "http://"; "https://"] ∧
    www ∈ [""; "www."] ∧
    host ∈ hosts ∧
    tail_ok tail.

(** The shape as the specification words it: host youtube.com or youtu.be,
    then a slash and a non-empty remainder. *)
Definition claimed_shape : string → Prop :=
  url_shape ["youtube.com"; "youtu.be"] (λ tail, tail ≠ "").

(** One or more characters other than a line feed, then possibly one final
    line feed: what [.+$] takes. *)
Definition one_line (tail : string) : Prop :=
  ∃ body nl,
    tail = body +:+ nl ∧ body ≠ "" ∧ no_newline body = true ∧
    (nl = "" ∨ nl = String LF "").

Definition accepted_shape : string → Prop :=
  url_shape ["youtube.com"; "youtu.be"] one_line.

(** The same with the host written [youtube], without a dot. *)
Definition dotless_shape : string → Prop :=
  url_shape ["youtube"] one_line.

(** ** Stub collaborators, for concrete runs *)

(** The working directory of the stubs. *)
Definition stub_cwd : string := "/srv/app/".

(** Leading [./] dropped. *)
Fixpoint drop_dot_slash (p : string) : string :=
  match p with
  | String a (String b rest) =>
      if Ascii.eqb a "." && Ascii.eqb b "/" then drop_dot_slash rest else p
  | _ => p
  end.

(** As much of [os.path.abspath] as the concrete runs need: an absolute path
    is kept, a relative one is taken from the working directory, without
    its leading [./]. *)
Definition stub_abspath (p : string) : string :=
  match p with
  | String "/" _ => p
  | _ => stub_cwd +:+ drop_dot_slash p
  end.

(** [repr] as it is on a string without quote, backslash or control
    character, such as the key ['text']. *)
Definition stub_repr (s : string) : string := "'" +:+ s +:+ "'".

(** Each collaborator answers with a fixed outcome; a Fetcher that returns
    an audio path also stores the audio there. *)
Definition stub (fetched : outcome (pyval * pyval * pyval))
    (loaded : outcome string) (transcribed : outcome (gmap string string))
    : Collaborators := {|
  model := string;
  abspath := stub_abspath;
  repr := stub_repr;
  download_mp3_yt_dlp _ fs :=
    (fetched,
     match fetched with
     | Ret (a, _, _) =>
         match as_path a with
         | Some p => <[stub_abspath p := "ID3"]> fs
         | None => fs
         end
     | Raise _ => fs
     end);
  load_model _ fs := (loaded, fs);
  model_transcribe _ _ _ fs := (transcribed, fs);
|}.

Definition rick_title : pyval := PStr "Never Gonna Give You Up".
Definition rick_thumbnail : pyval :=
  PStr "https://i.ytimg.com/vi/dQw4w9WgXcQ/hqdefault.jpg".

Definition rick : pyval * pyval * pyval :=
  (PStr "audio.mp3", rick_title, rick_thumbnail).

Definition happy : Collaborators :=
  stub (Ret rick) (Ret "whisper-base") (Ret {["text" := "hello world"]}).

Definition no_network : Collaborators :=
  stub (Raise (Exception "network unreachable")) (Ret "whisper-base")
       (Ret {["text" := "hello world"]}).

Definition no_weights : Collaborators :=
  stub (Ret rick) (Raise (Exception "checkpoint not found"))
       (Ret {["text" := "hello world"]}).


(** A Fetcher that names the output file under another spelling. *)
Definition dot_clash : Collaborators :=
  stub (Ret (PStr "./transcription.txt", rick_title, rick_thumbnail))
       (Ret "whisper-base") (Ret {["text" := "hello world"]}).

(** A fresh process: empty disk, empty cache, nothing logged. *)
Definition boot `{C : Collaborators} : world := World ∅ ∅ [].

Definition rick_url : string := "https://www.youtube.com/watch?v=dQw4w9WgXcQ".

(** ** Further observations: event kinds, frames, paths of a run, sessions *)

Section Further.
Context `{C : Collaborators}.

Definition is_progress (e : event) : bool :=
  match e with EvProgress _ _ => true | _ => false end.

Definition is_print (e : event) : bool :=
  match e with EvPrint _ => true | _ => false end.

Definition is_write (e : event) : bool :=
  match e with EvWrite _ _ => true | _ => false end.

Definition is_remove (e : event) : bool :=
  match e with EvRemove _ => true | _ => false end.

Definition is_model_call (e : event) : bool :=
  match e with EvTranscribe _ _ _ => true | _ => false end.


(** The four ways through [get_video_info_and_transcribe], each with the
    tuple it returns and the world it ends in. *)
Inductive run_path (url size : string) (language : pyval) (w : world)
    : outcome (pyval * pyval * pyval * pyval) → world → Prop :=
| Path_invalid :
    is_valid_youtube_url url = false →
    run_path url size language w
      (Ret (PStr "Invalid YouTube URL.", PNone, PStr "", PNone))
      (emit (EvProgress 0 "Validating URL...") w)
| Path_empty a title thumb fs :
    is_valid_youtube_url url = true →
    download_mp3_yt_dlp url (files w) = (Ret (a, title, thumb), fs) →
    truthy a = false →
    run_path url size language w
      (Ret (PStr "Failed to download audio.", PNone, PStr "", PNone))
      (set_files fs
         (emit (EvDownload url) (emit (EvProgress 0 "Validating URL...") w)))
| Path_raise e fs :
    is_valid_youtube_url url = true →
    download_mp3_yt_dlp url (files w) = (Raise e, fs) →
    run_path url size language w
      (Ret (PStr "An error occurred while downloading the video.",
            PNone, PStr "", PNone))
      (emit (EvPrint ("Error downloading video info: " +:+ exn_str e))
         (set_files fs
            (emit (EvDownload url) (emit (EvProgress 0 "Validating URL...") w))))
| Path_fetched p title thumb fs t w2 :
    is_valid_youtube_url url = true →
    download_mp3_yt_dlp url (files w) = (Ret (PStr p, title, thumb), fs) →
    p ≠ "" →
    transcribe_audio p size language (fetched url fs w) = (Ret t, w2) →
    run_path url size language w
      (Ret (title, thumb, PStr t, PStr transcription_file))
      (finished p t w2).

End Further.

(** One press of the Transcribe button: the values of the three inputs. *)
Record request : Type := Request {
  req_url : string;
  req_size : string;
  req_language : pyval;
}.

Section Session.
Context `{C : Collaborators}.

(** The presses of a session, served one after the other by the same
    process: [transcribe_button.click(fn=get_video_info_and_transcribe,
    inputs=[youtube_url, model_size, language], outputs=[...])]. *)
Fixpoint serve (rs : list request)
    : M (list (pyval * pyval * pyval * pyval)) :=
  match rs with
  | [] => ret []
  | r :: rs' =>
      out ← get_video_info_and_transcribe (req_url r) (req_size r)
              (req_language r);
      outs ← serve rs';
      ret (out :: outs)
  end.

End Session.

(** A model that loads and then fails on the audio. *)
Definition garbled : Collaborators :=
  stub (Ret rick) (Ret "whisper-base") (Raise (Exception "corrupt audio")).


(** ** Tactics *)

(** Unfolds the program down to functions on worlds. *)
Ltac py_unfold :=
  unfold get_video_info_and_transcribe, download_video_info, transcribe_audio,
    call_download, call_load_model, call_transcribe, progress, print,
    open_w_write, os_path_exists, os_remove, getitem, get_models, store_model,
    collaborate, tell, try_except, mbind, M_bind, bind, mret, M_ret, ret, raise.

(** Case analysis on a call [H : ... = (r, w')] of [transcribe_audio], once
    written in direct style: the state of the cache, the outcome of the
    load, the outcome of the transcription and the presence of the text. *)
Ltac ta_cases H :=
  unfold transcribe_with, transcription_failed in H; cbn in H;
  repeat match type of H with
    | context [match ?x !! ?k with _ => _ end] =>
        let E := fresh "E" in destruct (x !! k) eqn:E; cbn in H
    | context [load_model ?s ?d] =>
        let E := fresh "E" in
        destruct (load_model s d) as [[?m|?e] ?fs] eqn:E; cbn in H
    | context [model_transcribe ?a ?b ?o ?d] =>
        let E := fresh "E" in
        destruct (model_transcribe a b o d) as [[?res|?e] ?fs] eqn:E; cbn in H
    end;
  injection H as <- <-.

(** Decides, on a concrete string, the finitely many ways a shape can
    split it. *)
Ltac refute_shape :=
  let E := fresh "E" in
  intros (? & ? & ? & ? & E & ?Hs & ?Hw & ?Hh & _);
  rewrite ?elem_of_cons, ?elem_of_nil in *;
  destruct_or!; try done; subst; cbv in E; discriminate E.

(** * Facts *)

(** ** Strings *)

Lemma sapp_nil_l (b : string) : "" +:+ b = b.
Proof. reflexivity. Qed.

Lemma sapp_cons (x : ascii) (a b : string) :
  String x a +:+ b = String x (a +:+ b).
Proof. reflexivity. Qed.

Lemma sapp_assoc (a b c : string) : (a +:+ b) +:+ c = a +:+ (b +:+ c).
Proof. induction a as [|x a IH]; [done | by rewrite !sapp_cons, IH]. Qed.

Lemma sapp_nil_r (a : string) : a +:+ "" = a.
Proof. induction a as [|x a IH]; [done | by rewrite sapp_cons, IH]. Qed.

Lemma slen_app (a b : string) : slen (a +:+ b) = slen a + slen b.
Proof. induction a as [|x a IH]; [done | rewrite sapp_cons; cbn; by rewrite IH]. Qed.

Lemma strip_prefix_app (p s : string) : strip_prefix p (p +:+ s) = Some s.
Proof.
  induction p as [|a p IH]; [done|].
  rewrite sapp_cons. cbn. by rewrite Ascii.eqb_refl.
Qed.

Lemma strip_prefix_Some (p s s' : string) :
  strip_prefix p s = Some s' → s = p +:+ s'.
Proof.
  revert s. induction p as [|a p IH]; intros s H; cbn in H.
  - by injection H.
  - destruct s as [|b s]; [done|].
    destruct (Ascii.eqb_spec a b) as [->|]; [|done].
    rewrite sapp_cons. f_equal. by apply IH.
Qed.

(** ** The matcher computes the declarative reading *)

Module ReFacts.
Import Re.

Lemma plus_loop_S (r : regex) k fuel pos s :
  plus_loop r k (S fuel) pos s =
  run r pos s (λ pos' s', plus_loop r k fuel pos' s' || k pos' s').
Proof. reflexivity. Qed.

Lemma plus_loop_sound (r : regex) k :
  sound_at r →
  ∀ fuel pos s, plus_loop r k fuel pos s = true →
    ∃ m rest, s = m +:+ rest ∧ matches (Plus r) pos m rest ∧
              k (pos + slen m) rest = true.
Proof.
  intros Hr. induction fuel as [|fuel IH]; intros pos s H; [done|].
  rewrite plus_loop_S in H.
  apply Hr in H as (m1 & rest1 & -> & Hm1 & Hk).
  apply orb_true_iff in Hk as [Hmore|Hk].
  - apply IH in Hmore as (m2 & rest & -> & Hm2 & Hk).
    exists (m1 +:+ m2), rest. split; [by rewrite sapp_assoc|].
    split; [by apply M_plus_more|].
    by rewrite slen_app, Nat.add_assoc.
  - exists m1, rest1. eauto using M_plus_one.
Qed.

Lemma run_sound (r : regex) : sound_at r.
Proof.
  induction r as [| |p| |r1 IH1 r2 IH2|r1 IH1 r2 IH2|r IH|r IH];
    intros pos s k H; cbn [run] in H.
  - apply andb_true_iff in H as [Hpos Hk]. apply Nat.eqb_eq in Hpos as ->.
    exists "", s. split; [done|]. split; [constructor | by rewrite Nat.add_0_r].
  - apply andb_true_iff in H as [He Hk].
    exists "", s. split; [done|]. split; [by constructor | by rewrite Nat.add_0_r].
  - destruct (strip_prefix p s) as [s'|] eqn:Hp; [|done].
    apply strip_prefix_Some in Hp as ->.
    exists p, s'. split; [done|]. split; [constructor | done].
  - destruct s as [|c s]; [done|].
    apply andb_true_iff in H as [Hc Hk]. apply negb_true_iff in Hc.
    exists (String c ""), s. split; [done|]. split.
    + constructor. intros ->. by rewrite Ascii.eqb_refl in Hc.
    + cbn. by rewrite Nat.add_1_r.
  - apply IH1 in H as (m1 & rest1 & -> & Hm1 & H).
    apply IH2 in H as (m2 & rest & -> & Hm2 & H).
    exists (m1 +:+ m2), rest. split; [by rewrite sapp_assoc|].
    split; [by apply M_seq|]. by rewrite slen_app, Nat.add_assoc.
  - apply orb_true_iff in H as [H|H].
    + apply IH1 in H as (m & rest & -> & Hm & H). eauto 6 using M_alt_l.
    + apply IH2 in H as (m & rest & -> & Hm & H). eauto 6 using M_alt_r.
  - apply orb_true_iff in H as [H|H].
    + apply IH in H as (m & rest & -> & Hm & H). eauto 6 using M_opt_some.
    + exists "", s. split; [done|].
      split; [apply M_opt_none | by rewrite Nat.add_0_r].
  - change (plus_loop r k (S (slen s)) pos s = true) in H.
    by apply (plus_loop_sound r k IH) in H.
Qed.

(** A consuming expression never matches the empty string. *)
Lemma consumes_matches (r : regex) pos m rest :
  consumes r = true → matches r pos m rest → 0 < slen m.
Proof.
  intros Hc Hm. induction Hm; cbn [consumes] in Hc; try done.
  - destruct p; [done | cbn; lia].
  - cbn; lia.
  - rewrite slen_app. apply orb_true_iff in Hc as [?|?].
    + specialize (IHHm1 ltac:(done)). lia.
    + specialize (IHHm2 ltac:(done)). lia.
  - apply andb_true_iff in Hc as [? ?]. auto.
  - apply andb_true_iff in Hc as [? ?]. auto.
  - auto.
  - rewrite slen_app. specialize (IHHm1 Hc). lia.
Qed.

Lemma plus_loop_complete (r : regex) k :
  consumes r = true → complete_at r →
  ∀ pos m rest, matches (Plus r) pos m rest →
  ∀ fuel, slen (m +:+ rest) < fuel → k (pos + slen m) rest = true →
    plus_loop r k fuel pos (m +:+ rest) = true.
Proof.
  intros Hc Hr pos m rest Hm.
  remember (Plus r) as pr eqn:Epr.
  induction Hm as [| | | | | | | | |r' pos m rest Hm _
                  |r' pos m1 m2 rest Hm1 _ Hm2 IH2]; try discriminate Epr.
  - injection Epr as ->. intros [|fuel] Hfuel Hk; [lia|].
    rewrite plus_loop_S. apply Hr; [done|].
    rewrite Hk. apply orb_true_r.
  - injection Epr as ->. intros [|fuel] Hfuel Hk; [lia|].
    rewrite plus_loop_S, sapp_assoc. apply Hr; [done|].
    apply orb_true_iff. left. apply IH2; [done| |].
    + pose proof (consumes_matches _ _ _ _ Hc Hm1).
      rewrite sapp_assoc, slen_app in Hfuel. lia.
    + by rewrite slen_app, Nat.add_assoc in Hk.
Qed.

Lemma run_complete (r : regex) : productive r = true → complete_at r.
Proof.
  induction r as [| |p| |r1 IH1 r2 IH2|r1 IH1 r2 IH2|r IH|r IH];
    cbn [productive]; intros Hp pos m rest k Hm Hk;
    inversion Hm; subst; cbn [run].
  - rewrite Nat.add_0_r in Hk. by rewrite sapp_nil_l, Hk.
  - rewrite Nat.add_0_r in Hk. rewrite sapp_nil_l, Hk.
    by apply andb_true_iff.
  - by rewrite strip_prefix_app.
  - rewrite sapp_cons, sapp_nil_l. cbn in Hk. rewrite Nat.add_1_r in Hk.
    rewrite Hk, andb_true_r. apply negb_true_iff.
    by apply Ascii.eqb_neq.
  - apply andb_true_iff in Hp as [Hp1 Hp2].
    rewrite sapp_assoc. apply IH1; [done..|].
    apply IH2; [done..|]. by rewrite slen_app, Nat.add_assoc in Hk.
  - apply andb_true_iff in Hp as [Hp1 Hp2].
    apply orb_true_iff. left. by apply IH1.
  - apply andb_true_iff in Hp as [Hp1 Hp2].
    apply orb_true_iff. right. by apply IH2.
  - apply orb_true_iff. left. by apply IH.
  - apply orb_true_iff. right. by rewrite Nat.add_0_r in Hk.
  - apply andb_true_iff in Hp as [Hc Hp].
    change (plus_loop r k (S (slen (m +:+ rest))) pos (m +:+ rest) = true).
    apply plus_loop_complete; auto.
  - apply andb_true_iff in Hp as [Hc Hp].
    change (plus_loop r k (S (slen ((m1 +:+ m2) +:+ rest))) pos
              ((m1 +:+ m2) +:+ rest) = true).
    apply plus_loop_complete; auto.
Qed.

(** [re.match] succeeds exactly on the strings with a matching prefix. *)
Lemma re_match_iff (r : regex) (s : string) :
  productive r = true →
  re_match r s = true ↔ ∃ m rest, s = m +:+ rest ∧ matches r 0 m rest.
Proof.
  intros Hp. unfold re_match. split.
  - intros H. apply run_sound in H as (m & rest & -> & Hm & _). eauto.
  - intros (m & rest & -> & Hm). by apply run_complete.
Qed.

End ReFacts.

(** ** What [youtube_regex] matches *)

Module Pattern.
Import Re ReFacts.

Lemma matches_bol pos m rest : matches Bol pos m rest ↔ pos = 0 ∧ m = "".
Proof. split; [by inversion 1 | intros [-> ->]; constructor]. Qed.

Lemma matches_eol pos m rest :
  matches Eol pos m rest ↔ m = "" ∧ at_end rest = true.
Proof. split; [by inversion 1 | intros [-> ?]; by constructor]. Qed.

Lemma matches_lit p pos m rest : matches (Lit p) pos m rest ↔ m = p.
Proof. split; [by inversion 1 | intros ->; constructor]. Qed.

Lemma matches_seq r1 r2 pos m rest :
  matches (Seq r1 r2) pos m rest ↔
  ∃ m1 m2, m = m1 +:+ m2 ∧ matches r1 pos m1 (m2 +:+ rest) ∧
           matches r2 (pos + slen m1) m2 rest.
Proof.
  split.
  - inversion 1; subst. eauto.
  - intros (m1 & m2 & -> & ? & ?). by constructor.
Qed.

Lemma matches_alt r1 r2 pos m rest :
  matches (Alt r1 r2) pos m rest ↔ matches r1 pos m rest ∨ matches r2 pos m rest.
Proof.
  split.
  - inversion 1; subst; auto.
  - intros [?|?]; [by apply M_alt_l | by apply M_alt_r].
Qed.

Lemma matches_opt r pos m rest :
  matches (Opt r) pos m rest ↔ m = "" ∨ matches r pos m rest.
Proof.
  split.
  - inversion 1; subst; auto.
  - intros [->|?]; [apply M_opt_none | by apply M_opt_some].
Qed.

(** [.+] takes any non-empty run of characters without a line feed. *)
Lemma matches_plus_dot pos m rest :
  matches (Plus Dot) pos m rest ↔ m ≠ "" ∧ no_newline m = true.
Proof.
  split.
  - intros H. remember (Plus Dot) as r eqn:Er.
    induction H as [| | | | | | | | |r' pos m rest Hm _
                   |r' pos m1 m2 rest Hm1 _ Hm2 IH2]; try discriminate Er;
      injection Er as ->.
    + inversion Hm as [| | |c ? ? Hc| | | | | | |]; subst. split; [done|].
      cbn. apply Ascii.eqb_neq in Hc. by rewrite Hc.
    + inversion Hm1 as [| | |c ? ? Hc| | | | | | |]; subst.
      destruct (IH2 eq_refl) as [_ Hn]. split; [done|].
      rewrite sapp_cons, sapp_nil_l. cbn.
      apply Ascii.eqb_neq in Hc. by rewrite Hc, Hn.
  - intros [Hne Hn]. revert pos.
    induction m as [|c m IH]; intros pos; [done|].
    cbn in Hn. apply andb_true_iff in Hn as [Hc Hn].
    apply negb_true_iff, Ascii.eqb_neq in Hc.
    destruct m as [|c' m].
    + apply M_plus_one. by constructor.
    + change (String c (String c' m)) with (String c "" +:+ String c' m).
      apply M_plus_more; [by constructor | by apply IH].
Qed.

Lemma at_end_iff (s : string) : at_end s = true ↔ s = "" ∨ s = String LF "".
Proof.
  destruct s as [|c [|c' s]]; cbn.
  - split; [by left | done].
  - rewrite Ascii.eqb_eq. split; [intros ->; by right|].
    by intros [?|[= ->]].
  - split; [done | by intros [?|?]].
Qed.

(** [(https?://)?] *)
Lemma scheme_matches pos m rest :
  matches (Opt (Seq (Lit "http") (Seq (Opt (Lit "s")) (Lit "://")))) pos m rest ↔
  m ∈ [""; "http://"; "https://"].
Proof.
  rewrite matches_opt, matches_seq, !elem_of_cons, elem_of_nil.
  split.
  - intros [->|(m1 & m2 & -> & H1 & H2)]; [by left|].
    apply matches_lit in H1 as ->.
    apply matches_seq in H2 as (m3 & m4 & -> & H3 & H4).
    apply matches_lit in H4 as ->.
    apply matches_opt in H3 as [->|H3]; [by right; left|].
    apply matches_lit in H3 as ->. by right; right; left.
  - intros [->|[->|[->|[]]]]; [by left| |]; right.
    + exists "http", "://". split; [done|]. split; [by apply matches_lit|].
      apply matches_seq. exists "", "://".
      split; [done|]. split; [apply M_opt_none | by apply matches_lit].
    + exists "http", "s://". split; [done|]. split; [by apply matches_lit|].
      apply matches_seq. exists "s", "://".
      split; [done|]. split; [apply M_opt_some | ]; by apply matches_lit.
Qed.

(** [(www\.)?] *)
Lemma www_matches pos m rest :
  matches (Opt (Lit "www.")) pos m rest ↔ m ∈ [""; "www."].
Proof.
  rewrite matches_opt, matches_lit, !elem_of_cons, elem_of_nil.
  split; [intros [-> | ->]; auto | intros [-> | [-> | []]]; auto].
Qed.

(** [(youtube\.com|youtu\.?be)]: the optional dot lets [youtube] through. *)
Lemma host_matches pos m rest :
  matches (Alt (Lit "youtube.com")
               (Seq (Lit "youtu") (Seq (Opt (Lit ".")) (Lit "be")))) pos m rest ↔
  m ∈ ["youtube.com"; "youtu.be"; "youtube"].
Proof.
  rewrite matches_alt, matches_lit, matches_seq, !elem_of_cons, elem_of_nil.
  split.
  - intros [->|(m1 & m2 & -> & H1 & H2)]; [by left|].
    apply matches_lit in H1 as ->.
    apply matches_seq in H2 as (m3 & m4 & -> & H3 & H4).
    apply matches_lit in H4 as ->.
    apply matches_opt in H3 as [->|H3]; [by right; right; left|].
    apply matches_lit in H3 as ->. by right; left.
  - intros [->|[->|[->|[]]]]; [by left| |]; right.
    + exists "youtu", ".be". split; [done|]. split; [by apply matches_lit|].
      apply matches_seq. exists ".", "be".
      split; [done|]. split; [apply M_opt_some | ]; by apply matches_lit.
    + exists "youtu", "be". split; [done|]. split; [by apply matches_lit|].
      apply matches_seq. exists "", "be".
      split; [done|]. split; [apply M_opt_none | by apply matches_lit].
Qed.

Lemma youtube_regex_productive : productive youtube_regex = true.
Proof. reflexivity. Qed.

Lemma youtube_regex_matches m rest :
  matches youtube_regex 0 m rest ↔
  ∃ scheme www host body,
    m = scheme +:+ www +:+ host +:+ "/" +:+ body ∧
    scheme ∈ [""; "http://"; "https://"] ∧
    www ∈ [""; "www."] ∧
    host ∈ ["youtube.com"; "youtu.be"; "youtube"] ∧
    (body ≠ "" ∧ no_newline body = true) ∧
    at_end rest = true.
Proof.
  unfold youtube_regex. split.
  - intros H.
    apply matches_seq in H as (m0 & m' & -> & H0 & H).
    apply matches_bol in H0 as [_ ->].
    apply matches_seq in H as (scheme & m1 & -> & Hs & H).
    apply scheme_matches in Hs.
    apply matches_seq in H as (www & m2 & -> & Hw & H).
    apply www_matches in Hw.
    apply matches_seq in H as (host & m3 & -> & Hh & H).
    apply host_matches in Hh.
    apply matches_seq in H as (slash & m4 & -> & Hsl & H).
    apply matches_lit in Hsl as ->.
    apply matches_seq in H as (body & m5 & -> & Hb & H).
    apply matches_plus_dot in Hb.
    apply matches_eol in H as [-> He].
    exists scheme, www, host, body. by rewrite sapp_nil_r, sapp_nil_l.
  - intros (scheme & www & host & body & -> & Hs & Hw & Hh & Hb & He).
    apply matches_seq. eexists "", _. split; [by rewrite sapp_nil_l|].
    split; [by apply matches_bol|].
    apply matches_seq. eexists _, _. split; [done|].
    split; [by apply scheme_matches|].
    apply matches_seq. eexists _, _. split; [done|].
    split; [by apply www_matches|].
    apply matches_seq. eexists _, _. split; [done|].
    split; [by apply host_matches|].
    apply matches_seq. eexists _, _. split; [done|].
    split; [by apply matches_lit|].
    apply matches_seq. eexists _, "". split; [by rewrite sapp_nil_r|].
    split; [by apply matches_plus_dot | by apply matches_eol].
Qed.

(** The validator, read off its pattern. *)
Lemma is_valid_youtube_url_iff (url : string) :
  is_valid_youtube_url url = true ↔
  url_shape ["youtube.com"; "youtu.be"; "youtube"] one_line url.
Proof.
  unfold is_valid_youtube_url.
  rewrite (re_match_iff _ _ youtube_regex_productive).
  split.
  - intros (m & rest & -> & H).
    apply youtube_regex_matches in H
      as (scheme & www & host & body & -> & Hs & Hw & Hh & [Hne Hn] & He).
    exists scheme, www, host, (body +:+ rest).
    split; [by rewrite !sapp_assoc|]. do 3 (split; [done|]).
    exists body, rest. by apply at_end_iff in He.
  - intros (scheme & www & host & tail & -> & Hs & Hw & Hh
            & body & nl & -> & Hne & Hn & Hnl).
    exists (scheme +:+ www +:+ host +:+ "/" +:+ body), nl.
    split; [by rewrite !sapp_assoc|].
    apply youtube_regex_matches. exists scheme, www, host, body.
    do 5 (split; [done|]). by apply at_end_iff.
Qed.

Lemma url_shape_hosts_app hosts1 hosts2 tail_ok url :
  url_shape (hosts1 ++ hosts2) tail_ok url ↔
  url_shape hosts1 tail_ok url ∨ url_shape hosts2 tail_ok url.
Proof.
  unfold url_shape. split.
  - intros (scheme & www & host & tail & E & Hs & Hw & Hh & Ht).
    apply elem_of_app in Hh as [Hh|Hh]; [left | right];
      by exists scheme, www, host, tail.
  - intros [(scheme & www & host & tail & E & Hs & Hw & Hh & Ht)
           |(scheme & www & host & tail & E & Hs & Hw & Hh & Ht)];
      exists scheme, www, host, tail; rewrite elem_of_app; auto 10.
Qed.

Lemma is_valid_youtube_url_cases (url : string) :
  is_valid_youtube_url url = true ↔ accepted_shape url ∨ dotless_shape url.
Proof.
  rewrite is_valid_youtube_url_iff.
  apply (url_shape_hosts_app ["youtube.com"; "youtu.be"] ["youtube"]).
Qed.

End Pattern.

(** ** The orchestrator *)

Section Run.
Context `{C : Collaborators}.

Implicit Types (w : world) (fs : files_t) (url size p t : string)
  (language title thumb : pyval).

Lemma new_events_app w w' evs :
  log w' = log w ++ evs → new_events w w' = evs.
Proof. unfold new_events. intros ->. by rewrite drop_app_length. Qed.

Lemma as_path_truthy (v : pyval) : truthy v = false ↔ as_path v = None.
Proof. by destruct v as [|[|]]. Qed.

Lemma as_path_Some (v : pyval) p : as_path v = Some p → v = PStr p ∧ p ≠ "".
Proof. destruct v as [|[|c s]]; [done..|]. by intros [= <-]. Qed.

(** *** [download_video_info] *)

Lemma download_video_info_invalid url w :
  is_valid_youtube_url url = false →
  download_video_info url w = (Ret (PNone, PStr "Invalid YouTube URL.", PNone), w).
Proof. intros H. unfold download_video_info. by rewrite H. Qed.

Lemma download_video_info_ok url w a title thumb fs :
  is_valid_youtube_url url = true →
  download_mp3_yt_dlp url (files w) = (Ret (a, title, thumb), fs) →
  truthy a = true →
  download_video_info url w =
    (Ret (a, title, thumb), set_files fs (emit (EvDownload url) w)).
Proof.
  intros Hv Hd Ha. py_unfold. rewrite Hv. cbn. rewrite Hd. cbn. by rewrite Ha.
Qed.

Lemma download_video_info_empty url w a title thumb fs :
  is_valid_youtube_url url = true →
  download_mp3_yt_dlp url (files w) = (Ret (a, title, thumb), fs) →
  truthy a = false →
  download_video_info url w =
    (Ret (PNone, PStr "Failed to download audio.", PNone),
     set_files fs (emit (EvDownload url) w)).
Proof.
  intros Hv Hd Ha. py_unfold. rewrite Hv. cbn. rewrite Hd. cbn. by rewrite Ha.
Qed.

Lemma download_video_info_raise url w e fs :
  is_valid_youtube_url url = true →
  download_mp3_yt_dlp url (files w) = (Raise e, fs) →
  download_video_info url w =
    (Ret (PNone, PStr "An error occurred while downloading the video.", PNone),
     emit (EvPrint ("Error downloading video info: " +:+ exn_str e))
       (set_files fs (emit (EvDownload url) w))).
Proof.
  intros Hv Hd. py_unfold. rewrite Hv. cbn. by rewrite Hd.
Qed.

(** *** [transcribe_audio] *)

(** The function in direct style, by the state of the cache. *)
Lemma transcribe_audio_eq p size language w :
  transcribe_audio p size language w =
  match models w !! size with
  | Some m => transcribe_with m p language w
  | None =>
      let w1 := emit (EvLoadModel size) w in
      match load_model size (files w) with
      | (Ret m, fs) =>
          transcribe_with m p language
            (set_models (<[size := m]> (models w)) (set_files fs w1))
      | (Raise e, fs) => transcription_failed e (set_files fs w1)
      end
  end.
Proof.
  py_unfold. unfold transcribe_with, transcription_failed. cbn.
  destruct (models w !! size) as [m|] eqn:Hc; cbn.
  - rewrite Hc. cbn.
    destruct (model_transcribe _ _ _ _) as [[result|e] fs]; cbn; [|done].
    by destruct (result !! "text").
  - destruct (load_model size (files w)) as [[m|e] fs]; cbn; [|done].
    rewrite lookup_insert_eq. cbn.
    destruct (model_transcribe _ _ _ _) as [[result|e] fs']; cbn; [|done].
    by destruct (result !! "text").
Qed.

Lemma transcribe_with_total m p language w :
  ∃ t w', transcribe_with m p language w = (Ret t, w').
Proof.
  unfold transcribe_with, transcription_failed.
  destruct (model_transcribe _ _ _ _) as [[result|e] fs]; [|eauto].
  destruct (result !! "text"); eauto.
Qed.

(** [transcribe_audio] always returns a string: no exception leaves it. *)
Lemma transcribe_audio_total p size language w :
  ∃ t w', transcribe_audio p size language w = (Ret t, w').
Proof.
  rewrite transcribe_audio_eq.
  destruct (models w !! size); [apply transcribe_with_total|].
  cbn. destruct (load_model _ _) as [[m|e] fs];
    [apply transcribe_with_total | unfold transcription_failed; eauto].
Qed.

(** *** [get_video_info_and_transcribe] *)

Lemma run_invalid url size language w :
  is_valid_youtube_url url = false →
  get_video_info_and_transcribe url size language w =
    (Ret (PStr "Invalid YouTube URL.", PNone, PStr "", PNone),
     emit (EvProgress 0 "Validating URL...") w).
Proof.
  intros Hv. unfold get_video_info_and_transcribe, progress, tell, mbind, M_bind, bind.
  by rewrite download_video_info_invalid.
Qed.

Lemma run_fetch_empty url size language w a title thumb fs :
  is_valid_youtube_url url = true →
  download_mp3_yt_dlp url (files w) = (Ret (a, title, thumb), fs) →
  truthy a = false →
  get_video_info_and_transcribe url size language w =
    (Ret (PStr "Failed to download audio.", PNone, PStr "", PNone),
     set_files fs (emit (EvDownload url) (emit (EvProgress 0 "Validating URL...") w))).
Proof.
  intros Hv Hd Ha.
  unfold get_video_info_and_transcribe, progress, tell, mbind, M_bind, bind.
  by erewrite download_video_info_empty.
Qed.

Lemma run_fetch_raise url size language w e fs :
  is_valid_youtube_url url = true →
  download_mp3_yt_dlp url (files w) = (Raise e, fs) →
  get_video_info_and_transcribe url size language w =
    (Ret (PStr "An error occurred while downloading the video.", PNone, PStr "", PNone),
     emit (EvPrint ("Error downloading video info: " +:+ exn_str e))
       (set_files fs (emit (EvDownload url) (emit (EvProgress 0 "Validating URL...") w)))).
Proof.
  intros Hv Hd.
  unfold get_video_info_and_transcribe, progress, tell, mbind, M_bind, bind.
  by erewrite download_video_info_raise.
Qed.

Lemma run_fetched url size language w p title thumb fs t w2 :
  is_valid_youtube_url url = true →
  download_mp3_yt_dlp url (files w) = (Ret (PStr p, title, thumb), fs) →
  p ≠ "" →
  transcribe_audio p size language (fetched url fs w) = (Ret t, w2) →
  get_video_info_and_transcribe url size language w =
    (Ret (title, thumb, PStr t, PStr transcription_file), finished p t w2).
Proof.
  intros Hv Hd Hp Ht.
  unfold get_video_info_and_transcribe, progress, tell, mbind, M_bind, bind.
  erewrite download_video_info_ok; [|done..|by destruct p].
  destruct p as [|c p]; [done|]. cbn [as_path].
  unfold fetched in Ht. rewrite Ht.
  unfold finished, cleaned, written, open_w_write, os_path_exists, os_remove, ret.
  cbn.
  match goal with
  | |- context [bool_decide (is_Some ?x)] => destruct x eqn:E
  end; cbn; by rewrite ?E.
Qed.

(** *** The end of a run *)

Lemma cleaned_files p w :
  files (cleaned p w) = delete (abspath p) (files w).
Proof.
  unfold cleaned. destruct (files w !! abspath p) eqn:E; [done|].
  symmetry. by apply delete_id.
Qed.

Lemma cleaned_models p w : models (cleaned p w) = models w.
Proof. unfold cleaned. by destruct (files w !! abspath p). Qed.

Lemma finished_files p t w :
  files (finished p t w) =
  delete (abspath p) (<[abspath transcription_file := t]> (files w)).
Proof. unfold finished. cbn [files emit]. by rewrite cleaned_files. Qed.

Lemma finished_audio_gone p t w :
  files (finished p t w) !! abspath p = None.
Proof. rewrite finished_files. apply lookup_delete_eq. Qed.

Lemma finished_output p t w :
  abspath p ≠ abspath transcription_file →
  files (finished p t w) !! abspath transcription_file = Some t.
Proof.
  intros Hp. rewrite finished_files, lookup_delete_ne by done.
  apply lookup_insert_eq.
Qed.

Lemma finished_models p t w : models (finished p t w) = models w.
Proof. unfold finished. cbn [models emit]. by rewrite cleaned_models. Qed.

Lemma finished_log p t w :
  ∃ evs, log (finished p t w) = log w ++ EvWrite transcription_file t :: evs ∧
         count_events is_fetcher_call evs = 0 ∧
         count_events is_transcriber_call evs = 0.
Proof.
  unfold finished, cleaned.
  destruct (files (written t w) !! abspath p) eqn:E; cbn;
    rewrite <- !app_assoc; eauto.
Qed.

Lemma fetched_log url fs w :
  log (fetched url fs w) =
  log w ++ [EvProgress 0 "Validating URL..."; EvDownload url;
            EvProgress 50 "Transcribing audio..."].
Proof. cbn. by rewrite <- !app_assoc. Qed.

End Run.

(** *** The Transcriber, scenario by scenario *)

Section Scenarios.
Context `{C : Collaborators}.

Implicit Types (w : world) (fs : files_t) (url size p t : string)
  (language title thumb : pyval).

(** The log only grows, and the Transcriber leaves its mark on it: a model
    load or a transcription is recorded by every call of [transcribe_audio],
    and the Fetcher is not called. *)
Lemma transcribe_audio_log p size language w r w' :
  transcribe_audio p size language w = (r, w') →
  ∃ evs, log w' = log w ++ evs ∧
         1 ≤ count_events is_transcriber_call evs ∧
         count_events is_fetcher_call evs = 0.
Proof.
  intros H. rewrite transcribe_audio_eq in H.
  ta_cases H; cbn; rewrite <- ?app_assoc;
    eexists; (split; [reflexivity|]); cbn; split; (lia || done).
Qed.

(** The cache only grows: no entry is dropped or replaced. *)
Lemma transcribe_audio_cache p size language w r w' :
  transcribe_audio p size language w = (r, w') → models w ⊆ models w'.
Proof.
  intros H. rewrite transcribe_audio_eq in H.
  ta_cases H; cbn; try done; by apply insert_subseteq.
Qed.


Lemma transcribe_audio_faults p size language w e fs' :
  transcriber_faults (models w) p size language (files w) e fs' →
  ∃ w' evs,
    transcribe_audio p size language w =
      (Ret "An error occurred during transcription.", w') ∧
    files w' = fs' ∧
    log w' = log w ++ evs ++ [EvPrint ("Error during transcription: " +:+ exn_str e)].
Proof.
  intros Hf. rewrite transcribe_audio_eq.
  unfold transcribe_with, transcription_failed.
  destruct Hf as [Hc Hl|m fs1 Hm Ht|m fs1 result Hm Ht Htext ->].
  - rewrite Hc. cbn. rewrite Hl.
    eexists _, [_]. split; [done|]. split; [done|]. cbn. by rewrite <- !app_assoc.
  - destruct Hm as [m Hc|m fs1 Hc Hl]; rewrite Hc; cbn.
    + rewrite Ht. eexists _, [_]. split; [done|]. split; [done|].
      cbn. by rewrite <- !app_assoc.
    + rewrite Hl. cbn. rewrite Ht. eexists _, [_; _].
      split; [done|]. split; [done|]. cbn. by rewrite <- !app_assoc.
  - destruct Hm as [m Hc|m fs1 Hc Hl]; rewrite Hc; cbn.
    + rewrite Ht, Htext. eexists _, [_]. split; [done|]. split; [done|].
      cbn. by rewrite <- !app_assoc.
    + rewrite Hl. cbn. rewrite Ht, Htext. eexists _, [_; _].
      split; [done|]. split; [done|]. cbn. by rewrite <- !app_assoc.
Qed.

(** *** Claims about one run *)

Lemma count_events_app f (evs1 evs2 : list event) :
  count_events f (evs1 ++ evs2) = count_events f evs1 + count_events f evs2.
Proof. unfold count_events. by rewrite List.filter_app, length_app. Qed.


(** C3, amended.  No fault of a collaborator leaves the orchestrator: it
    always returns a tuple.  A fault of the download call is caught, printed,
    and a short message takes the place of the title.  A fault of the model
    load or of the transcription is caught and printed too, but its short
    message is returned in the transcription field; the title and thumbnail
    are those of the video. *)
Theorem faults_are_contained url size language w :
  (∃ r w', get_video_info_and_transcribe url size language w = (Ret r, w')) ∧
  (∀ e fs,
     is_valid_youtube_url url = true →
     download_mp3_yt_dlp url (files w) = (Raise e, fs) →
     ∃ w',
       get_video_info_and_transcribe url size language w =
         (Ret (PStr "An error occurred while downloading the video.",
               PNone, PStr "", PNone), w') ∧
       EvPrint ("Error downloading video info: " +:+ exn_str e) ∈ new_events w w') ∧
  (∀ p title thumb fs e fs',
     is_valid_youtube_url url = true →
     download_mp3_yt_dlp url (files w) = (Ret (PStr p, title, thumb), fs) →
     p ≠ "" →
     transcriber_faults (models w) p size language fs e fs' →
     ∃ w',
       get_video_info_and_transcribe url size language w =
         (Ret (title, thumb, PStr "An error occurred during transcription.",
               PStr "transcription.txt"), w') ∧
       EvPrint ("Error during transcription: " +:+ exn_str e) ∈ new_events w w').
Proof.
  split; [|split].
  - destruct (is_valid_youtube_url url) eqn:Hv; [|by rewrite run_invalid; eauto].
    destruct (download_mp3_yt_dlp url (files w)) as [[[[a title] thumb]|e] fs] eqn:Hd.
    + destruct (as_path a) as [p|] eqn:Ha.
      * apply as_path_Some in Ha as [-> Hp].
        destruct (transcribe_audio_total p size language (fetched url fs w))
          as (t & w2 & Ht).
        erewrite run_fetched by done. eauto.
      * apply as_path_truthy in Ha. erewrite run_fetch_empty by done. eauto.
    + erewrite run_fetch_raise by done. eauto.
  - intros e fs Hv Hd. erewrite run_fetch_raise by done.
    eexists. split; [done|].
    erewrite new_events_app; [|cbn; by rewrite <- !app_assoc].
    set_solver.
  - intros p title thumb fs e fs' Hv Hd Hp Hf.
    destruct (transcribe_audio_faults p size language (fetched url fs w) e fs')
      as (w2 & evs & Hta & _ & Hlog); [done|].
    erewrite run_fetched by done.
    eexists. split; [done|].
    destruct (finished_log p "An error occurred during transcription." w2)
      as (evs' & Hfin & _).
    erewrite new_events_app;
      [|by rewrite Hfin, Hlog, fetched_log, <- !app_assoc].
    set_solver.
Qed.

(** C4.  A URL that fails validation yields the error title, no thumbnail,
    an empty transcription and no file; the only event is the first progress
    report, so neither the Fetcher nor the Transcriber was called, and the
    disk and the cache are as before. *)
Theorem invalid_url_short_circuits url size language w :
  is_valid_youtube_url url = false →
  ∃ w',
    get_video_info_and_transcribe url size language w =
      (Ret (PStr "Invalid YouTube URL.", PNone, PStr "", PNone), w') ∧
    new_events w w' = [EvProgress 0 "Validating URL..."] ∧
    count_events is_fetcher_call (new_events w w') = 0 ∧
    count_events is_transcriber_call (new_events w w') = 0 ∧
    files w' = files w ∧ models w' = models w.
Proof.
  intros Hv. rewrite run_invalid by done. eexists. split; [done|].
  by erewrite new_events_app by done.
Qed.

(** C5.  For a valid URL whose download fails — the Fetcher raises, or
    returns an empty audio path — the run returns the message of that failure
    in place of the title, no thumbnail, an empty transcription and no file;
    the Fetcher was called once and the Transcriber not at all. *)
Theorem fetch_failure_reported url size language w o fs :
  is_valid_youtube_url url = true →
  download_mp3_yt_dlp url (files w) = (o, fs) →
  fetcher_failed o →
  ∃ w',
    get_video_info_and_transcribe url size language w =
      (Ret (PStr (match o with
                  | Raise _ => "An error occurred while downloading the video."
                  | Ret _ => "Failed to download audio."
                  end), PNone, PStr "", PNone), w') ∧
    count_events is_fetcher_call (new_events w w') = 1 ∧
    count_events is_transcriber_call (new_events w w') = 0 ∧
    models w' = models w.
Proof.
  intros Hv Hd Hf. destruct o as [[[a title] thumb]|e]; cbn in Hf.
  - erewrite run_fetch_empty by done. eexists. split; [done|].
    by erewrite new_events_app; [|cbn; by rewrite <- !app_assoc].
  - erewrite run_fetch_raise by done. eexists. split; [done|].
    by erewrite new_events_app; [|cbn; by rewrite <- !app_assoc].
Qed.

(** C7.  After a run in which the Fetcher returned a non-empty audio path,
    no file exists at that path. *)
Theorem audio_file_removed url size language w p title thumb fs :
  is_valid_youtube_url url = true →
  download_mp3_yt_dlp url (files w) = (Ret (PStr p, title, thumb), fs) →
  p ≠ "" →
  ∃ t w',
    get_video_info_and_transcribe url size language w =
      (Ret (title, thumb, PStr t, PStr "transcription.txt"), w') ∧
    files w' !! abspath p = None.
Proof.
  intros Hv Hd Hp.
  destruct (transcribe_audio_total p size language (fetched url fs w))
    as (t & w2 & Ht).
  erewrite run_fetched by done.
  eexists _, _. split; [done|]. apply finished_audio_gone.
Qed.


End Scenarios.

(** ** The Transcriber and its cache *)

Section Transcriber.
Context `{C : Collaborators}.

Implicit Types (w : world) (fs : files_t) (url size p t s : string)
  (language title thumb : pyval).

Lemma truthy_supplied language :
  truthy language = true ↔ language_supplied language.
Proof.
  unfold language_supplied. split.
  - destruct language as [|[|c code]]; [done..|]. eauto.
  - intros (code & -> & Hne). by destruct code.
Qed.

Lemma options_by_language language :
  let options : gmap string pyval :=
    if truthy language then <["language" := language]> ∅ else ∅ in
  (language_supplied language ∧ options = {["language" := language]}) ∨
  (¬ language_supplied language ∧ options = ∅).
Proof.
  cbn. destruct (truthy language) eqn:Ht.
  - left. split; [by apply truthy_supplied | by rewrite insert_empty].
  - right. split; [|done]. intros Hs%truthy_supplied. congruence.
Qed.

(** C9.  Whenever [transcribe_audio] invokes the model, it invokes it on the
    audio path it was given, with the language as the only option when a
    language was supplied (a non-empty string) and with no option at all
    otherwise; and it does invoke the model whenever the model is at hand. *)
Theorem language_hint_iff_supplied p size language w :
  ∃ t w',
    transcribe_audio p size language w = (Ret t, w') ∧
    (∀ m p' options,
       EvTranscribe m p' options ∈ new_events w w' →
       p' = p ∧
       ((language_supplied language ∧ options = {["language" := language]}) ∨
        (¬ language_supplied language ∧ options = ∅))) ∧
    (∀ m fs1,
       model_ready (models w) size (files w) m fs1 →
       ∃ options, EvTranscribe m p options ∈ new_events w w').
Proof.
  destruct (transcribe_audio_total p size language w) as (t & w' & H).
  exists t, w'. split; [done|].
  pose proof (options_by_language language) as Ho. cbn in Ho.
  rewrite transcribe_audio_eq in H.
  ta_cases H;
    (erewrite new_events_app; [|cbn; rewrite <- ?app_assoc; reflexivity]);
    (split;
     [ intros m' p' o' Hin;
       repeat (apply elem_of_cons in Hin as [Hin|Hin]; [try discriminate Hin|]);
       try (by apply elem_of_nil in Hin);
       injection Hin as -> -> ->; by split
     | intros m' fs1 Hr; destruct Hr;
       repeat match goal with
         | H1 : ?x = _, H2 : ?x = _ |- _ => rewrite H1 in H2; simplify_eq
         end;
       cbn; eexists; eauto using list_elem_of_here, list_elem_of_further ]).
Qed.

(** *** Sequences of calls *)

Lemma transcribe_all_cons c cs w :
  transcribe_all (c :: cs) w =
  match transcribe_audio (call_audio c) (call_size c) (call_language c) w with
  | (Ret t, w1) =>
      match transcribe_all cs w1 with
      | (Ret ts, w2) => (Ret (t :: ts), w2)
      | (Raise e, w2) => (Raise e, w2)
      end
  | (Raise e, w1) => (Raise e, w1)
  end.
Proof. reflexivity. Qed.

Lemma transcribe_all_total cs w :
  ∃ ts w', transcribe_all cs w = (Ret ts, w').
Proof.
  revert w. induction cs as [|c cs IH]; intros w; [by eexists _, _|].
  rewrite transcribe_all_cons.
  destruct (transcribe_audio_total (call_audio c) (call_size c) (call_language c) w)
    as (t & w1 & ->).
  destruct (IH w1) as (ts & w2 & ->). eauto.
Qed.

(** One call and the loads of size [s]: never more than one, and none when
    [s] is cached or the call is for another size. *)
Lemma transcribe_audio_loads s p size language w r w' :
  transcribe_audio p size language w = (r, w') →
  ∃ evs, log w' = log w ++ evs ∧
         count_events (is_load_of s) evs ≤ 1 ∧
         (is_Some (models w !! s) → count_events (is_load_of s) evs = 0) ∧
         (size ≠ s → count_events (is_load_of s) evs = 0).
Proof.
  intros H.
  assert (models w !! size = None → is_Some (models w !! s) →
          String.eqb size s = false) as Hne.
  { intros Hn [m Hs]. apply String.eqb_neq. congruence. }
  rewrite transcribe_audio_eq in H.
  ta_cases H; cbn; rewrite <- ?app_assoc;
    (eexists; split; [reflexivity|]); unfold count_events; cbn;
    try (split; [lia | done]);
    (destruct (String.eqb_spec size s) as [Eq|Eq]; cbn;
     [split; [lia|]; split; [|done];
      intros Hs; specialize (Hne eq_refl Hs); congruence
     |split; [lia | done]]).
Qed.

(** Once a call with size [s] has run with a loader that does not fault on
    [s], the model of [s] is cached. *)
Lemma transcribe_audio_caches s p language w r w' :
  (∀ fs, ∃ m fs', load_model s fs = (Ret m, fs')) →
  transcribe_audio p s language w = (r, w') →
  is_Some (models w' !! s).
Proof.
  intros Hok H.
  destruct (models w !! s) as [m|] eqn:Hc.
  - eapply lookup_weaken_is_Some; [by eexists|].
    by eapply transcribe_audio_cache.
  - destruct (Hok (files w)) as (m & fs' & Hl).
    rewrite transcribe_audio_eq, Hc in H. cbn in H. rewrite Hl in H.
    unfold transcribe_with, transcription_failed in H. cbn in H.
    destruct (model_transcribe _ _ _ _) as [[res|e] fs2];
      [destruct (res !! "text")|]; injection H as <- <-; cbn;
      rewrite lookup_insert_eq; by eexists.
Qed.

Lemma transcribe_all_cached s cs w r w' :
  transcribe_all cs w = (r, w') →
  ∃ evs, log w' = log w ++ evs ∧ models w ⊆ models w' ∧
         (is_Some (models w !! s) → count_events (is_load_of s) evs = 0).
Proof.
  revert w r w'. induction cs as [|c cs IH]; intros w r w' H.
  - injection H as <- <-. exists []. by rewrite app_nil_r.
  - rewrite transcribe_all_cons in H.
    destruct (transcribe_audio _ _ _ w) as [[t|e] w1] eqn:H1.
    2:{ destruct (transcribe_audio_total (call_audio c) (call_size c)
                    (call_language c) w) as (? & ? & ?). congruence. }
    pose proof (transcribe_audio_cache _ _ _ _ _ _ H1) as Hsub1.
    destruct (transcribe_audio_loads s _ _ _ _ _ _ H1) as (evs1 & Hl1 & _ & Hz1 & _).
    destruct (transcribe_all cs w1) as [r2 w2] eqn:H2.
    destruct (IH _ _ _ H2) as (evs2 & Hl2 & Hsub2 & Hz2).
    assert (w' = w2) as -> by (destruct r2; by injection H).
    exists (evs1 ++ evs2). split; [by rewrite Hl2, Hl1, app_assoc|].
    split; [by etrans|].
    intros Hs. rewrite count_events_app, Hz1 by done.
    rewrite Hz2; [done|]. by eapply lookup_weaken_is_Some.
Qed.

(** C6, amended.  Let the loader not fault on size [s].  Then over any
    sequence of [transcribe_audio] calls the loader is invoked at most once
    for [s], and not at all when [s] was cached at the start; the cache is
    never cleared (every entry stays, unchanged); and once a call with size
    [s] was made, [s] is cached. *)
Theorem loader_invoked_at_most_once s cs w :
  (∀ fs, ∃ m fs', load_model s fs = (Ret m, fs')) →
  ∃ ts w',
    transcribe_all cs w = (Ret ts, w') ∧
    count_events (is_load_of s) (new_events w w') ≤ 1 ∧
    (is_Some (models w !! s) →
     count_events (is_load_of s) (new_events w w') = 0) ∧
    models w ⊆ models w' ∧
    ((∃ c, c ∈ cs ∧ call_size c = s) → is_Some (models w' !! s)).
Proof.
  intros Hok. revert w. induction cs as [|c cs IH]; intros w.
  - exists [], w. split; [done|]. unfold new_events. rewrite drop_all.
    split; [cbn; lia|]. split; [done|]. split; [done|].
    intros (c & Hc & _). by apply elem_of_nil in Hc.
  - rewrite transcribe_all_cons.
    destruct (transcribe_audio_total (call_audio c) (call_size c)
                (call_language c) w) as (t & w1 & H1).
    rewrite H1.
    destruct (IH w1) as (ts & w2 & H2 & Hle2 & Hz2 & Hsub2 & Hin2).
    rewrite H2. exists (t :: ts), w2. split; [done|].
    pose proof (transcribe_audio_cache _ _ _ _ _ _ H1) as Hsub1.
    destruct (transcribe_audio_loads s _ _ _ _ _ _ H1)
      as (evs1 & Hl1 & Hle1 & Hz1 & Hother1).
    destruct (transcribe_all_cached s _ _ _ _ H2) as (evs2 & Hl2 & _ & Hz2').
    rewrite (new_events_app w1 w2 evs2 Hl2) in Hle2, Hz2.
    rewrite (new_events_app w w2 (evs1 ++ evs2))
      by (by rewrite Hl2, Hl1, app_assoc).
    rewrite count_events_app.
    assert (is_Some (models w !! s) → is_Some (models w1 !! s)) as Hkeep.
    { intros Hs. by eapply lookup_weaken_is_Some. }
    split; [|split; [|split]].
    + destruct (decide (call_size c = s)) as [Hsz|Hsz].
      * rewrite Hz2; [lia|]. subst s. by eapply transcribe_audio_caches.
      * rewrite Hother1 by done. lia.
    + intros Hs. by rewrite Hz1, Hz2 by auto.
    + by etrans.
    + intros (c' & Hc' & Hsz). apply elem_of_cons in Hc' as [->|Hc'].
      * eapply lookup_weaken_is_Some; [|done].
        subst s. by eapply transcribe_audio_caches.
      * apply Hin2. eauto.
Qed.

End Transcriber.

(** ** Running twice *)

Section Rerun.
Context `{C : Collaborators}.

Implicit Types (w : world) (fs : files_t) (url size p t s : string)
  (language title thumb : pyval).

(** With deterministic collaborators, a second call with the same arguments
    in a world that kept the cache returns what the first call returned. *)
Lemma transcribe_audio_again p size language w r w' wx :
  deterministic →
  transcribe_audio p size language w = (r, w') →
  models wx = models w' →
  ∃ wx', transcribe_audio p size language wx = (r, wx').
Proof.
  intros (_ & Hload & Htr) H Hm.
  rewrite transcribe_audio_eq. unfold transcribe_with, transcription_failed.
  rewrite transcribe_audio_eq in H.
  ta_cases H; cbn in Hm; rewrite Hm, ?lookup_insert_eq, ?E; cbn;
    repeat match goal with
      | E0 : load_model ?a ?d0 = _ |- context [load_model ?a ?d] =>
          let E' := fresh "E'" in
          let Hx := fresh "Hx" in
          destruct (load_model a d) as [?r ?fs] eqn:E';
          pose proof (Hload a d d0) as Hx; rewrite E', E0 in Hx;
          cbn in Hx; subst; cbn
      | E0 : model_transcribe ?a ?b ?o ?d0 = _
        |- context [model_transcribe ?a ?b ?o ?d] =>
          let E' := fresh "E'" in
          let Hx := fresh "Hx" in
          destruct (model_transcribe a b o d) as [?r ?fs] eqn:E';
          pose proof (Htr a b o d d0) as Hx; rewrite E', E0 in Hx;
          cbn in Hx; subst; cbn
      end;
    rewrite ?E0, ?E1, ?E2; eauto.
Qed.

Lemma finished_output_same p t w wx :
  files (finished p t w) !! abspath transcription_file =
  files (finished p t wx) !! abspath transcription_file.
Proof.
  rewrite !finished_files.
  destruct (decide (abspath p = abspath transcription_file)) as [->|Hp].
  - by rewrite !lookup_delete_eq.
  - by rewrite !lookup_delete_ne, !lookup_insert_eq by done.
Qed.

(** C8.  With deterministic collaborators, a second run with the same inputs
    returns what the first returned.  When the runs reach the write (they
    return the output path), [transcription.txt] holds after the second run
    what it held after the first: the text returned and nothing more (or no
    file, had the audio path named the same file); the file was overwritten,
    not appended to.  When they do not reach it, the orchestrator does not
    touch the file, so its content is the same after both runs if the
    Fetcher leaves it alone. *)
Theorem rerun_overwrites_identically url size language w r1 w1 r2 w2 :
  deterministic →
  get_video_info_and_transcribe url size language w = (r1, w1) →
  get_video_info_and_transcribe url size language w1 = (r2, w2) →
  r2 = r1 ∧
  (∀ title thumb t out,
     r1 = Ret (title, thumb, PStr t, PStr out) →
     files w2 !! abspath "transcription.txt" =
       files w1 !! abspath "transcription.txt" ∧
     (files w1 !! abspath "transcription.txt" = Some t ∨
      files w1 !! abspath "transcription.txt" = None)) ∧
  (fetcher_spares_output →
   files w2 !! abspath "transcription.txt" =
     files w1 !! abspath "transcription.txt").
Proof.
  intros Hdet H1 H2.
  destruct (is_valid_youtube_url url) eqn:Hv.
  2:{ rewrite run_invalid in H1, H2 by done.
      injection H1 as <- <-. injection H2 as <- <-. by repeat split. }
  destruct (download_mp3_yt_dlp url (files w)) as [o fs] eqn:Hd.
  destruct (download_mp3_yt_dlp url (files w1)) as [o' fsx] eqn:Hdx.
  assert (o' = o) as ->.
  { destruct Hdet as (Hf & _). specialize (Hf url (files w1) (files w)).
    by rewrite Hd, Hdx in Hf. }
  assert (fetcher_spares_output →
          fsx !! abspath transcription_file =
          files w1 !! abspath transcription_file) as Hkeep.
  { intros Hsp. specialize (Hsp url (files w1)). by rewrite Hdx in Hsp. }
  destruct o as [[[a title] thumb]|e].
  - destruct (as_path a) as [p|] eqn:Ha.
    + apply as_path_Some in Ha as [-> Hp].
      destruct (transcribe_audio_total p size language (fetched url fs w))
        as (t & wa & Ht).
      erewrite run_fetched in H1 by done. injection H1 as <- <-.
      destruct (transcribe_audio_again p size language _ _ _
                  (fetched url fsx (finished p t wa)) Hdet Ht) as (wb & Htx).
      { cbn [models fetched emit set_files]. by rewrite finished_models. }
      erewrite run_fetched in H2 by done. injection H2 as <- <-.
      split; [done|]. split; [|intros _; apply finished_output_same].
      intros ? ? t' out [= _ _ <- _].
      split; [apply finished_output_same|].
      destruct (decide (abspath p = abspath transcription_file)) as [Heq|Hne].
      * right. unfold transcription_file in Heq. rewrite <- Heq.
        apply finished_audio_gone.
      * left. by apply finished_output.
    + apply as_path_truthy in Ha.
      erewrite run_fetch_empty in H1 by done. injection H1 as <- <-.
      erewrite run_fetch_empty in H2 by done. injection H2 as <- <-.
      split; [done|]. split; [done|]. apply Hkeep.
  - erewrite run_fetch_raise in H1 by done. injection H1 as <- <-.
    erewrite run_fetch_raise in H2 by done. injection H2 as <- <-.
    split; [done|]. split; [done|]. apply Hkeep.
Qed.

End Rerun.

(** ** The validator against the specification's shape *)

Example valid_watch :
  is_valid_youtube_url "https://www.youtube.com/watch?v=VIDEO_ID" = true.
Proof. reflexivity. Qed.

Example valid_variants :
  List.map is_valid_youtube_url
    ["youtube.com/watch?v=a"; "www.youtube.com/watch?v=a";
     "http://youtube.com/watch?v=a"; "https://youtu.be/a"; "www.youtu.be/a"]
  = [true; true; true; true; true].
Proof. reflexivity. Qed.

Example invalid_variants :
  List.map is_valid_youtube_url
    ["https://vimeo.com/abc"; "https://www.youtube.com/"; "youtube.com";
     "see https://youtu.be/abc"; "ftp://youtube.com/a"; "https://m.youtube.com/a";
     "https://www.youtube.org/a"; ""]
  = [false; false; false; false; false; false; false; false].
Proof. reflexivity. Qed.

(** C2, as stated, fails both ways: [youtube/x] is accepted although its
    host is neither youtube.com nor youtu.be, and a URL of the claimed shape
    whose remainder holds a line feed before other characters is rejected. *)
Lemma claimed_shape_refuted :
  (is_valid_youtube_url "youtube/x" = true ∧ ¬ claimed_shape "youtube/x") ∧
  (claimed_shape ("https://youtube.com/a" +:+ String LF "b") ∧
   is_valid_youtube_url ("https://youtube.com/a" +:+ String LF "b") = false).
Proof.
  split; split.
  - reflexivity.
  - refute_shape.
  - exists "https://", "", "youtube.com", ("a" +:+ String LF "b").
    split; [reflexivity|].
    rewrite !elem_of_cons. split; [tauto|]. split; [tauto|]. split; [tauto|].
    discriminate.
  - reflexivity.
Qed.

(** C2, amended.  Leaving aside the strings whose host is written [youtube]
    without a dot, [is_valid_youtube_url] returns true exactly on: an
    optional [http://] or [https://], an optional [www.], the host
    youtube.com or youtu.be, a slash, one or more characters other than a
    line feed, and possibly one final line feed. *)
Theorem valid_iff_accepted_shape (url : string) :
  ¬ dotless_shape url →
  (is_valid_youtube_url url = true ↔ accepted_shape url).
Proof.
  intros Hdot. rewrite Pattern.is_valid_youtube_url_cases. tauto.
Qed.

Lemma valid_iff_accepted_shape_witness :
  is_valid_youtube_url rick_url = true ↔ accepted_shape rick_url.
Proof.
  apply (valid_iff_accepted_shape rick_url). refute_shape.
Defined.

(** No string has both shapes: the amended claim leaves out only strings
    that the specification does not want accepted. *)
Lemma accepted_not_dotless (url : string) :
  accepted_shape url → ¬ dotless_shape url.
Proof.
  intros (s1 & w1 & h1 & t1 & E1 & Hs1 & Hw1 & Hh1 & _)
         (s2 & w2 & h2 & t2 & E2 & Hs2 & Hw2 & Hh2 & _).
  rewrite E1 in E2. clear E1.
  rewrite ?elem_of_cons, ?elem_of_nil in *.
  destruct_or!; try done; subst; cbv in E2; discriminate E2.
Qed.

(** The accepted shape is inhabited by the usual links. *)
Example rick_url_accepted : accepted_shape rick_url.
Proof.
  exists "https://", "www.", "youtube.com", "watch?v=dQw4w9WgXcQ".
  split; [reflexivity|]. rewrite !elem_of_cons.
  split; [tauto|]. split; [tauto|]. split; [tauto|].
  exists "watch?v=dQw4w9WgXcQ", "". split; [reflexivity|].
  split; [discriminate|]. split; [reflexivity | tauto].
Qed.

(** ** Concrete runs *)



(** The same loss under another spelling of the output path: what counts
    is the file the audio path names, not the string. *)
Example output_lost_under_another_spelling :
  ∃ w' : @world dot_clash,
    get_video_info_and_transcribe (C := dot_clash) rick_url "base" PNone boot =
      (Ret (rick_title, rick_thumbnail, PStr "hello world",
            PStr "transcription.txt"), w') ∧
    new_events boot w' =
      [EvProgress 0 "Validating URL..."; EvDownload rick_url;
       EvProgress 50 "Transcribing audio..."; EvLoadModel "base";
       EvTranscribe (C := dot_clash) "whisper-base" "./transcription.txt" ∅;
       EvWrite "transcription.txt" "hello world";
       EvRemove "./transcription.txt"; EvProgress 100 "Done"] ∧
    files w' !! abspath (Collaborators := dot_clash) "transcription.txt" = None.
Proof. eexists. repeat split; reflexivity. Qed.

(** C3, as stated, fails for a fault of the model load: the fault is caught
    and its message returned, but in the transcription field; the title
    field holds the title of the video. *)
Lemma transcription_fault_keeps_title :
  transcriber_faults (C := no_weights) ∅ "audio.mp3" "base" PNone
    {[stub_abspath "audio.mp3" := "ID3"]} (Exception "checkpoint not found")
    {[stub_abspath "audio.mp3" := "ID3"]} ∧
  ∃ w' : @world no_weights,
    get_video_info_and_transcribe (C := no_weights) rick_url "base" PNone boot =
      (Ret (rick_title, rick_thumbnail,
            PStr "An error occurred during transcription.",
            PStr "transcription.txt"), w') ∧
    rick_title ≠ PStr "An error occurred during transcription.".
Proof.
  split; [by apply (Faults_load (C := no_weights))|].
  eexists. split; [reflexivity | discriminate].
Qed.

Lemma faults_are_contained_witness :
  (∃ w' : @world no_network,
     get_video_info_and_transcribe (C := no_network) rick_url "base" PNone boot =
       (Ret (PStr "An error occurred while downloading the video.",
             PNone, PStr "", PNone), w') ∧
     EvPrint "Error downloading video info: network unreachable"
       ∈ new_events boot w') ∧
  (∃ w' : @world no_weights,
     get_video_info_and_transcribe (C := no_weights) rick_url "base" PNone boot =
       (Ret (rick_title, rick_thumbnail,
             PStr "An error occurred during transcription.",
             PStr "transcription.txt"), w') ∧
     EvPrint "Error during transcription: checkpoint not found"
       ∈ new_events boot w').
Proof.
  split.
  - apply (proj1 (proj2 (faults_are_contained (C := no_network)
                           rick_url "base" PNone boot))
             (Exception "network unreachable") ∅); reflexivity.
  - apply (proj2 (proj2 (faults_are_contained (C := no_weights)
                           rick_url "base" PNone boot))
             "audio.mp3" rick_title rick_thumbnail
             {[stub_abspath "audio.mp3" := "ID3"]}
             (Exception "checkpoint not found")
             {[stub_abspath "audio.mp3" := "ID3"]}).
    + reflexivity.
    + reflexivity.
    + discriminate.
    + by apply (Faults_load (C := no_weights)).
Defined.

Lemma invalid_url_short_circuits_witness :
  ∃ w' : @world happy,
    get_video_info_and_transcribe (C := happy) "https://vimeo.com/76979871"
      "base" PNone boot =
      (Ret (PStr "Invalid YouTube URL.", PNone, PStr "", PNone), w') ∧
    new_events boot w' = [EvProgress 0 "Validating URL..."] ∧
    count_events is_fetcher_call (new_events boot w') = 0 ∧
    count_events is_transcriber_call (new_events boot w') = 0 ∧
    files w' = files (C := happy) boot ∧ models w' = models (C := happy) boot.
Proof.
  apply (invalid_url_short_circuits (C := happy)). reflexivity.
Defined.

Lemma fetch_failure_reported_witness :
  ∃ w' : @world no_network,
    get_video_info_and_transcribe (C := no_network) rick_url "base" PNone boot =
      (Ret (PStr "An error occurred while downloading the video.",
            PNone, PStr "", PNone), w') ∧
    count_events is_fetcher_call (new_events boot w') = 1 ∧
    count_events is_transcriber_call (new_events boot w') = 0 ∧
    models w' = models (C := no_network) boot.
Proof.
  apply (fetch_failure_reported (C := no_network) rick_url "base" PNone boot
           (Raise (Exception "network unreachable")) ∅).
  - reflexivity.
  - reflexivity.
  - exact I.
Defined.

Lemma audio_file_removed_witness :
  ∃ t (w' : @world happy),
    get_video_info_and_transcribe (C := happy) rick_url "base" PNone boot =
      (Ret (rick_title, rick_thumbnail, PStr t, PStr "transcription.txt"), w') ∧
    files w' !! stub_abspath "audio.mp3" = None.
Proof.
  apply (audio_file_removed (C := happy) rick_url "base" PNone boot
           "audio.mp3" rick_title rick_thumbnail {[stub_abspath "audio.mp3" := "ID3"]}).
  - reflexivity.
  - reflexivity.
  - discriminate.
Defined.


(** C6, as stated, fails for a loader that faults: nothing is cached by the
    failed load, so each of two calls with the same size invokes the loader. *)
Lemma faulting_loader_invoked_again :
  ∃ ts (w' : @world no_weights),
    transcribe_all (C := no_weights)
      [Call "audio.mp3" "base" PNone; Call "audio.mp3" "base" PNone] boot =
      (Ret ts, w') ∧
    count_events is_transcriber_call (new_events boot w') = 2 ∧
    count_events (is_load_of "base") (new_events boot w') = 2 ∧
    models w' = ∅.
Proof. eexists _, _. repeat split; reflexivity. Qed.

Lemma loader_invoked_at_most_once_witness :
  ∃ ts (w' : @world happy),
    transcribe_all (C := happy)
      [Call "a.mp3" "base" PNone; Call "b.mp3" "base" (PStr "en");
       Call "c.mp3" "base" PNone] boot =
      (Ret ts, w') ∧
    count_events (is_load_of "base") (new_events boot w') ≤ 1 ∧
    (is_Some (models (C := happy) boot !! "base") →
     count_events (is_load_of "base") (new_events boot w') = 0) ∧
    models (C := happy) boot ⊆ models w' ∧
    ((∃ c, c ∈ [Call "a.mp3" "base" PNone; Call "b.mp3" "base" (PStr "en");
                Call "c.mp3" "base" PNone] ∧ call_size c = "base") →
     is_Some (models w' !! "base")).
Proof.
  apply (loader_invoked_at_most_once (C := happy) "base").
  intros fs. by exists "whisper-base", fs.
Defined.

(** The same three calls, run: one load, then the cached model twice. *)
Example three_calls_one_load :
  new_events boot (transcribe_all (C := happy)
      [Call "a.mp3" "base" PNone; Call "b.mp3" "base" (PStr "en");
       Call "c.mp3" "base" PNone] boot).2 =
  [EvLoadModel "base";
   EvTranscribe (C := happy) "whisper-base" "a.mp3" ∅;
   EvTranscribe (C := happy) "whisper-base" "b.mp3" {["language" := PStr "en"]};
   EvTranscribe (C := happy) "whisper-base" "c.mp3" ∅].
Proof. reflexivity. Qed.

Lemma happy_deterministic : deterministic (C := happy).
Proof. by repeat split. Qed.

Lemma rerun_overwrites_identically_witness :
  ∃ r1 (w1 : @world happy) r2 (w2 : @world happy),
    get_video_info_and_transcribe (C := happy) rick_url "base" PNone boot = (r1, w1) ∧
    get_video_info_and_transcribe (C := happy) rick_url "base" PNone w1 = (r2, w2) ∧
    r2 = r1 ∧
    files w2 !! stub_abspath "transcription.txt" =
      files w1 !! stub_abspath "transcription.txt" ∧
    files w2 !! stub_abspath "transcription.txt" = Some "hello world".
Proof.
  eexists _, _, _, _.
  split; [apply surjective_pairing|]. split; [apply surjective_pairing|].
  pose proof (rerun_overwrites_identically (C := happy) rick_url "base" PNone
                boot _ _ _ _ happy_deterministic
                (surjective_pairing _) (surjective_pairing _)) as (H1 & H2 & _).
  destruct (H2 rick_title rick_thumbnail "hello world" "transcription.txt"
              eq_refl) as [H3 _].
  split; [exact H1|]. split; [exact H3 | reflexivity].
Defined.

Lemma language_hint_iff_supplied_witness :
  ∃ t (w' : @world happy),
    transcribe_audio (C := happy) "audio.mp3" "base" (PStr "en") boot = (Ret t, w') ∧
    (∀ m p' options,
       EvTranscribe m p' options ∈ new_events boot w' →
       p' = "audio.mp3" ∧
       ((language_supplied (PStr "en") ∧ options = {["language" := PStr "en"]}) ∨
        (¬ language_supplied (PStr "en") ∧ options = ∅))) ∧
    (∀ m fs1,
       model_ready (C := happy) (models (C := happy) boot) "base"
         (files (C := happy) boot) m fs1 →
       ∃ options, EvTranscribe m "audio.mp3" options ∈ new_events boot w').
Proof.
  exact (language_hint_iff_supplied (C := happy) "audio.mp3" "base" (PStr "en") boot).
Defined.

(** An empty language field of the form counts as no language. *)
Example empty_language_is_no_hint :
  new_events boot
    (transcribe_audio (C := happy) "audio.mp3" "base" (PStr "") boot).2 =
  [EvLoadModel "base"; EvTranscribe (C := happy) "whisper-base" "audio.mp3" ∅].
Proof. reflexivity. Qed.

(** * Further properties of the code *)

(** ** The validator *)

Lemma no_newline_app (a b : string) :
  no_newline (a +:+ b) = no_newline a && no_newline b.
Proof.
  induction a as [|x a IH]; [done|].
  rewrite sapp_cons. cbn. by rewrite IH, andb_assoc.
Qed.

Lemma sapp_snoc_inj (a b : string) (c : ascii) :
  a +:+ String c "" = b +:+ String c "" → a = b.
Proof.
  revert b. induction a as [|x a IH]; intros [|y b] E;
    rewrite ?sapp_cons, ?sapp_nil_l in E.
  - done.
  - injection E as _ E. by destruct b.
  - injection E as _ E. by destruct a.
  - injection E as -> E. f_equal. by apply IH.
Qed.

(** The part of an accepted string before its remainder holds no line feed. *)
Lemma shape_head_no_newline scheme www host (tail : string) :
  scheme ∈ [""; "http://"; "https://"] →
  www ∈ [""; "www."] →
  host ∈ ["youtube.com"; "youtu.be"; "youtube"] →
  no_newline (scheme +:+ www +:+ host +:+ "/" +:+ tail) = no_newline tail.
Proof.
  rewrite !elem_of_cons, !elem_of_nil. intros Hs Hw Hh.
  rewrite !no_newline_app.
  destruct_or!; try done; by subst.
Qed.

(** X1.  [is_valid_youtube_url] returns true exactly on the strings made of
    an optional [http://] or [https://], an optional [www.], one of the
    hosts [youtube.com], [youtu.be] and [youtube], a slash, one or more
    characters other than a line feed, and possibly one final line feed. *)
Theorem accepted_exactly (url : string) :
  is_valid_youtube_url url = true ↔
  url_shape ["youtube.com"; "youtu.be"; "youtube"] one_line url.
Proof. apply Pattern.is_valid_youtube_url_iff. Qed.

(** X2.  The validator does not look at what follows the slash: a valid URL
    on one line stays valid whatever is appended to it on that line. *)
Theorem rest_of_line_is_not_inspected (url suffix : string) :
  is_valid_youtube_url url = true →
  no_newline url = true →
  no_newline suffix = true →
  is_valid_youtube_url (url +:+ suffix) = true.
Proof.
  intros Hv Hn Hs.
  apply Pattern.is_valid_youtube_url_iff in Hv
    as (scheme & www & host & tail & -> & Hsc & Hw & Hh
        & body & nl & -> & Hne & Hb & Hnl).
  rewrite shape_head_no_newline, no_newline_app in Hn by done.
  apply andb_true_iff in Hn as [_ Hn].
  destruct Hnl as [->| ->]; [|done].
  apply Pattern.is_valid_youtube_url_iff.
  exists scheme, www, host, (body +:+ suffix).
  split; [by rewrite !sapp_assoc, sapp_nil_l|]. do 3 (split; [done|]).
  exists (body +:+ suffix), "". split; [by rewrite sapp_nil_r|].
  split; [by destruct body|].
  split; [by rewrite no_newline_app, Hb, Hs | by left].
Qed.

Lemma rest_of_line_is_not_inspected_witness :
  is_valid_youtube_url ("https://youtu.be/dQw4w9WgXcQ" +:+ " is a good one") = true.
Proof.
  apply rest_of_line_is_not_inspected; reflexivity.
Defined.

(** X3.  One line feed at the end of a one-line string changes nothing for
    the validator: the string with it is valid exactly when the string
    without it is. *)
Theorem final_line_feed_is_ignored (url : string) :
  no_newline url = true →
  is_valid_youtube_url (url +:+ String LF "") = is_valid_youtube_url url.
Proof.
  intros Hn. apply eq_true_iff_eq.
  rewrite !Pattern.is_valid_youtube_url_iff. split.
  - intros (scheme & www & host & tail & E & Hsc & Hw & Hh
            & body & nl & -> & Hne & Hb & Hnl).
    assert (no_newline (url +:+ String LF "") = false) as Hlf.
    { rewrite no_newline_app. cbn. by rewrite andb_false_r. }
    destruct Hnl as [->| ->].
    + rewrite E, shape_head_no_newline, sapp_nil_r, Hb in Hlf by done. done.
    + exists scheme, www, host, body. split.
      * apply (sapp_snoc_inj _ _ LF). by rewrite E, !sapp_assoc.
      * do 3 (split; [done|]). exists body, "".
        split; [by rewrite sapp_nil_r|]. auto.
  - intros (scheme & www & host & tail & -> & Hsc & Hw & Hh
            & body & nl & -> & Hne & Hb & Hnl).
    rewrite shape_head_no_newline, no_newline_app in Hn by done.
    apply andb_true_iff in Hn as [_ Hn].
    destruct Hnl as [->| ->]; [|done].
    exists scheme, www, host, (body +:+ String LF "").
    split; [by rewrite !sapp_assoc, sapp_nil_l|]. do 3 (split; [done|]).
    exists body, (String LF ""). auto.
Qed.

Lemma final_line_feed_is_ignored_witness :
  is_valid_youtube_url (rick_url +:+ String LF "") = is_valid_youtube_url rick_url.
Proof.
  apply final_line_feed_is_ignored. reflexivity.
Defined.

(** X4.  Nothing is trimmed or folded before matching: a string whose first
    character is not one of [h], [w] and [y] (a space, a capital letter) is
    rejected. *)
Theorem first_character_is_h_w_or_y (c : ascii) (rest : string) :
  c ≠ "h"%char → c ≠ "w"%char → c ≠ "y"%char →
  is_valid_youtube_url (String c rest) = false.
Proof.
  intros Hh Hw Hy.
  destruct (is_valid_youtube_url (String c rest)) eqn:Hv; [|done].
  apply Pattern.is_valid_youtube_url_iff in Hv
    as (scheme & www & host & tail & E & Hsc & Hww & Hho & _).
  rewrite !elem_of_cons, !elem_of_nil in *.
  destruct_or!; try done; subst; cbv in E; injection E as E _; congruence.
Qed.

Lemma first_character_is_h_w_or_y_witness :
  is_valid_youtube_url (String " " rick_url) = false ∧
  is_valid_youtube_url (String "H" "TTPS://www.youtube.com/watch?v=dQw4w9WgXcQ") = false.
Proof.
  split; apply first_character_is_h_w_or_y; discriminate.
Defined.

(** ** The orchestrator, path by path *)

Section Paths.
Context `{C : Collaborators}.

Implicit Types (w : world) (fs : files_t) (url size p t q : string)
  (language title thumb : pyval) (evs : list event).

Lemma run_path_of url size language w r w' :
  get_video_info_and_transcribe url size language w = (r, w') →
  run_path url size language w r w'.
Proof.
  intros H.
  destruct (is_valid_youtube_url url) eqn:Hv.
  2:{ rewrite run_invalid in H by done. injection H as <- <-.
      by constructor. }
  destruct (download_mp3_yt_dlp url (files w)) as [[[[a title] thumb]|e] fs] eqn:Hd.
  - destruct (as_path a) as [p|] eqn:Ha.
    + apply as_path_Some in Ha as [-> Hp].
      destruct (transcribe_audio_total p size language (fetched url fs w))
        as (t & w2 & Ht).
      erewrite run_fetched in H by done. injection H as <- <-.
      by eapply Path_fetched.
    + apply as_path_truthy in Ha.
      erewrite run_fetch_empty in H by done. injection H as <- <-.
      by eapply Path_empty.
  - erewrite run_fetch_raise in H by done. injection H as <- <-.
    by eapply Path_raise.
Qed.

Lemma count_events_none f evs :
  Forall (λ e, f e = false) evs → count_events f evs = 0.
Proof.
  unfold count_events. induction 1 as [|e evs He _ IH]; [done|].
  cbn. by rewrite He.
Qed.

Lemma count_events_cons f e evs :
  count_events f (e :: evs) = (if f e then 1 else 0) + count_events f evs.
Proof. unfold count_events. cbn. by destruct (f e). Qed.

(** What [transcribe_audio] adds to the log: loads, transcriptions and
    prints, nothing else. *)
Lemma transcribe_audio_trace p size language w r w' :
  transcribe_audio p size language w = (r, w') →
  ∃ evs, log w' = log w ++ evs ∧
         Forall (λ e, is_transcriber_call e || is_print e = true) evs.
Proof.
  intros H. rewrite transcribe_audio_eq in H.
  ta_cases H; cbn; rewrite <- ?app_assoc;
    (eexists; split; [reflexivity|]); by repeat constructor.
Qed.

Lemma transcribe_audio_quiet f p size language w r w' :
  (∀ e, is_transcriber_call e || is_print e = true → f e = false) →
  transcribe_audio p size language w = (r, w') →
  ∃ evs, log w' = log w ++ evs ∧ count_events f evs = 0 ∧
         List.filter f evs = [].
Proof.
  intros Hf H. destruct (transcribe_audio_trace _ _ _ _ _ _ H) as (evs & Hl & Hall).
  exists evs. split; [done|].
  assert (Forall (λ e, f e = false) evs) as Hno.
  { eapply Forall_impl; [exact Hall | exact Hf]. }
  split; [by apply count_events_none|].
  clear -Hno. induction Hno as [|e evs He _ IH]; [done|]. cbn. by rewrite He.
Qed.

Lemma finished_log_exact p t w :
  log (finished p t w) =
  log w ++ EvWrite transcription_file t ::
    match files (written t w) !! abspath p with
    | Some _ => [EvRemove p]
    | None => []
    end ++ [EvProgress 100 "Done"].
Proof.
  unfold finished, cleaned.
  destruct (files (written t w) !! abspath p); cbn; by rewrite <- !app_assoc.
Qed.

(** The new events of a run that reached transcription, around those of the
    Transcriber. *)
Lemma fetched_run_events url fs w p t w2 evs :
  log w2 = log (fetched url fs w) ++ evs →
  new_events w (finished p t w2) =
  [EvProgress 0 "Validating URL..."; EvDownload url;
   EvProgress 50 "Transcribing audio..."] ++ evs ++
  EvWrite transcription_file t ::
    match files (written t w2) !! abspath p with
    | Some _ => [EvRemove p]
    | None => []
    end ++ [EvProgress 100 "Done"].
Proof.
  intros Hl. apply new_events_app.
  by rewrite finished_log_exact, Hl, fetched_log, <- !app_assoc.
Qed.

End Paths.

(** Case analysis on a run [H : get_video_info_and_transcribe ... = (r, w')]
    by the path it took. *)
Ltac path_cases H :=
  apply run_path_of in H;
  destruct H as [Hv | a title0 thumb0 fs Hv Hd Ha | e fs Hv Hd
                | p title0 thumb0 fs t0 w2 Hv Hd Hp Ht].

(** The new events of the three short paths, computed. *)
Ltac short_events :=
  erewrite new_events_app by (cbn; rewrite <- ?app_assoc; reflexivity);
  cbn [app].

Section Footprint.
Context `{C : Collaborators}.

Implicit Types (w : world) (fs : files_t) (url size p t q : string)
  (language title thumb : pyval) (evs : list event).

Lemma not_in_transcriber_trace evs e :
  Forall (λ e, is_transcriber_call e || is_print e = true) evs →
  is_transcriber_call e || is_print e = false →
  e ∉ evs.
Proof.
  intros Hall He Hin. rewrite Forall_forall in Hall.
  apply Hall in Hin. congruence.
Qed.

(** X5.  The Fetcher is called at most once in a run, with the URL exactly
    as it was given, and only when that URL passed validation; a URL that
    passed is always fetched. *)
Theorem fetcher_sees_validated_input url size language w :
  ∃ r w',
    get_video_info_and_transcribe url size language w = (Ret r, w') ∧
    count_events is_fetcher_call (new_events w w') ≤ 1 ∧
    (∀ u, EvDownload u ∈ new_events w w' →
          u = url ∧ is_valid_youtube_url url = true) ∧
    (is_valid_youtube_url url = true → EvDownload url ∈ new_events w w').
Proof.
  destruct (get_video_info_and_transcribe url size language w) as [r w'] eqn:H.
  path_cases H; eexists _, _; (split; [reflexivity|]).
  - short_events. split; [cbn; lia|]. split; [|congruence].
    intros u Hin. apply list_elem_of_singleton in Hin. discriminate.
  - short_events. split; [cbn; lia|]. split.
    + intros u Hin. rewrite !elem_of_cons, elem_of_nil in Hin.
      destruct_or!; try done. by injection Hin as ->.
    + intros _. rewrite !elem_of_cons. auto.
  - short_events. split; [cbn; lia|]. split.
    + intros u Hin. rewrite !elem_of_cons, elem_of_nil in Hin.
      destruct_or!; try done. by injection Hin as ->.
    + intros _. rewrite !elem_of_cons. auto.
  - destruct (transcribe_audio_trace _ _ _ _ _ _ Ht) as (evs & Hl & Hall).
    rewrite (fetched_run_events _ _ _ _ _ _ _ Hl).
    split; [|split].
    + rewrite !count_events_app, count_events_cons, ?count_events_app.
      rewrite (count_events_none is_fetcher_call evs).
      2:{ eapply Forall_impl; [exact Hall|]. by intros [].  }
      destruct (files (written t0 w2) !! abspath p); cbn; lia.
    + intros u Hin. rewrite !elem_of_app, !elem_of_cons, elem_of_nil in Hin.
      destruct Hin as [Hin|[Hin|Hin]].
      * destruct_or!; try done. by injection Hin as ->.
      * by apply (not_in_transcriber_trace _ _ Hall) in Hin.
      * destruct (files (written t0 w2) !! abspath p);
          rewrite ?elem_of_app, ?elem_of_cons, ?elem_of_nil in Hin;
          destruct_or!; done.
    + intros _. rewrite elem_of_app, !elem_of_cons. auto.
Qed.

(** X6.  Progress is reported at 0 on every run; a run that returns no file
    reports nothing more, and a run that returns the output file reports
    50 and then 100, in that order and once each. *)
Theorem progress_milestones url size language w :
  ∃ title thumb text file w',
    get_video_info_and_transcribe url size language w =
      (Ret (title, thumb, text, file), w') ∧
    ((file = PNone ∧
      List.filter is_progress (new_events w w') =
        [EvProgress 0 "Validating URL..."]) ∨
     (file = PStr "transcription.txt" ∧
      List.filter is_progress (new_events w w') =
        [EvProgress 0 "Validating URL...";
         EvProgress 50 "Transcribing audio...";
         EvProgress 100 "Done"])).
Proof.
  destruct (get_video_info_and_transcribe url size language w) as [r w'] eqn:H.
  path_cases H; eexists _, _, _, _, _; (split; [reflexivity|]).
  - left. short_events. done.
  - left. short_events. done.
  - left. short_events. done.
  - right. split; [done|].
    destruct (transcribe_audio_quiet is_progress _ _ _ _ _ _
                ltac:(by intros []) Ht) as (evs & Hl & _ & Hnone).
    rewrite (fetched_run_events _ _ _ _ _ _ _ Hl).
    rewrite !List.filter_app, Hnone.
    by destruct (files (written t0 w2) !! abspath p).
Qed.

(** X7.  A run that returns no file has returned one of the three error
    messages as title, no thumbnail and an empty transcription; it wrote and
    removed nothing, called neither the loader nor the model, and left the
    cache as it was.  An output file of an earlier run is still there,
    unless the Fetcher itself touched it. *)
Theorem failed_run_leaves_no_trace url size language w title thumb text w' :
  get_video_info_and_transcribe url size language w =
    (Ret (title, thumb, text, PNone), w') →
  title ∈ [PStr "Invalid YouTube URL."; PStr "Failed to download audio.";
           PStr "An error occurred while downloading the video."] ∧
  thumb = PNone ∧ text = PStr "" ∧
  count_events is_write (new_events w w') = 0 ∧
  count_events is_remove (new_events w w') = 0 ∧
  count_events is_transcriber_call (new_events w w') = 0 ∧
  models w' = models w ∧
  (fetcher_spares_output →
   files w' !! abspath "transcription.txt" =
     files w !! abspath "transcription.txt").
Proof.
  intros H.
  assert (∀ fs', fetcher_spares_output →
            (download_mp3_yt_dlp url (files w)).2 = fs' →
            fs' !! abspath transcription_file =
            files w !! abspath transcription_file) as Hkeep.
  { intros fs' Hsp <-. apply Hsp. }
  remember (Ret (title, thumb, text, PNone)) as r eqn:Er.
  path_cases H; simplify_eq; short_events;
    rewrite !elem_of_cons; (split; [auto|]); do 6 (split; [done|]).
  - done.
  - intros Hsp. apply (Hkeep fs Hsp). by rewrite Hd.
  - intros Hsp. apply (Hkeep fs Hsp). by rewrite Hd.
Qed.

(** X8.  On the disk a run does at most two things of its own: it writes
    once, to [transcription.txt], the text it returns together with that
    path, and it removes once, the audio file the Fetcher named. *)
Theorem disk_footprint url size language w title thumb text file w' :
  get_video_info_and_transcribe url size language w =
    (Ret (title, thumb, text, file), w') →
  count_events is_write (new_events w w') ≤ 1 ∧
  count_events is_remove (new_events w w') ≤ 1 ∧
  (∀ path data,
     EvWrite path data ∈ new_events w w' →
     path = "transcription.txt" ∧ text = PStr data ∧
     file = PStr "transcription.txt") ∧
  (∀ path,
     EvRemove path ∈ new_events w w' →
     ∃ fs, download_mp3_yt_dlp url (files w) = (Ret (PStr path, title, thumb), fs)).
Proof.
  intros H. remember (Ret (title, thumb, text, file)) as r eqn:Er.
  path_cases H; simplify_eq.
  1-3: short_events; (split; [cbn; lia|]); (split; [cbn; lia|]);
       split; intros; rewrite ?elem_of_cons, ?elem_of_nil in *;
       destruct_or!; done.
  destruct (transcribe_audio_trace _ _ _ _ _ _ Ht) as (evs & Hl & Hall).
  rewrite (fetched_run_events _ _ _ _ _ _ _ Hl).
  assert (count_events is_write evs = 0) as Hw0.
  { apply count_events_none. eapply Forall_impl; [exact Hall|]. by intros []. }
  assert (count_events is_remove evs = 0) as Hr0.
  { apply count_events_none. eapply Forall_impl; [exact Hall|]. by intros []. }
  split; [|split; [|split]].
  - rewrite !count_events_app, count_events_cons, ?count_events_app, Hw0.
    destruct (files (written t0 w2) !! abspath p); cbn; lia.
  - rewrite !count_events_app, count_events_cons, ?count_events_app, Hr0.
    destruct (files (written t0 w2) !! abspath p); cbn; lia.
  - intros path data Hin.
    rewrite !elem_of_app, !elem_of_cons, elem_of_nil in Hin.
    destruct Hin as [Hin|[Hin|Hin]].
    + destruct_or!; done.
    + by apply (not_in_transcriber_trace _ _ Hall) in Hin.
    + destruct Hin as [[= -> ->]|Hin]; [done|].
      destruct (files (written t0 w2) !! abspath p);
        rewrite ?elem_of_app, ?elem_of_cons, ?elem_of_nil in Hin;
        destruct_or!; done.
  - intros path Hin.
    rewrite !elem_of_app, !elem_of_cons, elem_of_nil in Hin.
    destruct Hin as [Hin|[Hin|Hin]].
    + destruct_or!; done.
    + by apply (not_in_transcriber_trace _ _ Hall) in Hin.
    + destruct Hin as [Hin|Hin]; [done|].
      destruct (files (written t0 w2) !! abspath p);
        rewrite ?elem_of_app, ?elem_of_cons, ?elem_of_nil in Hin;
        destruct_or!; try done.
      injection Hin as ->. eauto.
Qed.



(** X10.  [download_video_info] never raises and signals failure through
    the audio path: either it returns the Fetcher's triple unchanged, with
    a non-empty audio path, for a URL that passed validation; or it returns
    no audio path, no thumbnail, and one of three fixed messages as title. *)
Theorem download_video_info_contract url w :
  ∃ a title thumb w',
    download_video_info url w = (Ret (a, title, thumb), w') ∧
    ((truthy a = true ∧ is_valid_youtube_url url = true ∧
      ∃ fs, download_mp3_yt_dlp url (files w) = (Ret (a, title, thumb), fs) ∧
            files w' = fs) ∨
     (a = PNone ∧ thumb = PNone ∧
      title ∈ [PStr "Invalid YouTube URL."; PStr "Failed to download audio.";
               PStr "An error occurred while downloading the video."])) ∧
    models w' = models w.
Proof.
  destruct (is_valid_youtube_url url) eqn:Hv.
  2:{ rewrite download_video_info_invalid by done.
      eexists _, _, _, _. split; [done|]. split; [|done].
      right. rewrite !elem_of_cons. auto 10. }
  destruct (download_mp3_yt_dlp url (files w)) as [[[[a title] thumb]|e] fs] eqn:Hd.
  - destruct (truthy a) eqn:Ha.
    + erewrite download_video_info_ok by done.
      eexists _, _, _, _. split; [done|]. split; [|done]. left. eauto.
    + erewrite download_video_info_empty by done.
      eexists _, _, _, _. split; [done|]. split; [|done].
      right. rewrite !elem_of_cons. auto 10.
  - erewrite download_video_info_raise by done.
    eexists _, _, _, _. split; [done|]. split; [|done].
    right. rewrite !elem_of_cons. auto 10.
Qed.

End Footprint.

(** ** The Transcriber: attempts and cache *)

Section Attempts.
Context `{C : Collaborators}.

Implicit Types (w : world) (fs : files_t) (url size p t s : string)
  (language title thumb : pyval) (evs : list event).

(** X11.  What a call of [transcribe_audio] does to the cache: entries of
    other sizes are never touched; a cached size leaves the cache as it is;
    a load that succeeds is stored, and stays stored even when the
    transcription that follows faults; a load that faults stores nothing,
    and then the model is not invoked and the fixed string is returned. *)
Theorem cache_after_call p size language w r w' :
  transcribe_audio p size language w = (r, w') →
  (∀ s, s ≠ size → models w' !! s = models w !! s) ∧
  (is_Some (models w !! size) → models w' = models w) ∧
  (∀ m fs,
     models w !! size = None → load_model size (files w) = (Ret m, fs) →
     models w' = <[size := m]> (models w)) ∧
  (∀ e fs,
     models w !! size = None → load_model size (files w) = (Raise e, fs) →
     models w' = models w ∧
     r = Ret "An error occurred during transcription." ∧
     count_events is_model_call (new_events w w') = 0).
Proof.
  intros H. rewrite transcribe_audio_eq in H.
  ta_cases H; cbn [models set_models set_files emit];
    (split; [intros sz Hsz; by rewrite ?lookup_insert_ne|]);
    (split; [intros [? ?]; congruence|]);
    (split; [intros ? ? ? ?; congruence|]);
    intros ? ? ? ?; try congruence.
  split; [done|]. split; [done|].
  by erewrite new_events_app by (cbn; rewrite <- ?app_assoc; reflexivity).
Qed.

(** X12.  A call of [transcribe_audio] never raises and never retries: it
    invokes the loader at most once, for the size asked and only when that
    size is not cached, and the model at most once; it prints at most one
    diagnostic, returns the fixed failure string whenever it prints one,
    and has invoked the model whenever it prints none. *)
Theorem one_attempt_per_call p size language w :
  ∃ t w',
    transcribe_audio p size language w = (Ret t, w') ∧
    count_events (is_load_of size) (new_events w w') ≤ 1 ∧
    (∀ s, EvLoadModel s ∈ new_events w w' →
          s = size ∧ models w !! size = None) ∧
    count_events is_model_call (new_events w w') ≤ 1 ∧
    count_events is_print (new_events w w') ≤ 1 ∧
    (count_events is_print (new_events w w') = 1 →
     t = "An error occurred during transcription.") ∧
    (count_events is_print (new_events w w') = 0 →
     count_events is_model_call (new_events w w') = 1).
Proof.
  destruct (transcribe_audio_total p size language w) as (t & w' & H).
  exists t, w'. split; [done|].
  rewrite transcribe_audio_eq in H.
  ta_cases H;
    (erewrite new_events_app by (cbn; rewrite <- ?app_assoc; reflexivity));
    unfold count_events; cbn; rewrite ?String.eqb_refl; cbn;
    (split; [lia|]);
    (split; [intros s' Hin; rewrite ?elem_of_cons, ?elem_of_nil in Hin;
             destruct_or!; try done; by injection Hin as ->|]);
    (split; [lia|]); (split; [lia|]); split; (done || lia).
Qed.

(** X13.  The model that [transcribe_audio] invokes is the one the cache
    holds for that size when the call returns, and the one it held before
    the call if it held one. *)
Theorem invoked_model_is_the_cached_one p size language w r w' :
  transcribe_audio p size language w = (r, w') →
  ∀ m p' options,
    EvTranscribe m p' options ∈ new_events w w' →
    models w' !! size = Some m ∧
    (∀ m0, models w !! size = Some m0 → m0 = m).
Proof.
  intros H. rewrite transcribe_audio_eq in H.
  ta_cases H;
    (erewrite new_events_app by (cbn; rewrite <- ?app_assoc; reflexivity));
    cbn; intros m' p' o' Hin;
    rewrite ?elem_of_cons, ?elem_of_nil in Hin;
    destruct_or!; try done; injection Hin as -> -> ->;
    rewrite ?lookup_insert_eq; (split; [done | congruence]).
Qed.

End Attempts.

(** ** Sessions: one press of the button after the other *)

Section Sessions.
Context `{C : Collaborators}.

Implicit Types (w : world) (fs : files_t) (url size p t s : string)
  (language title thumb : pyval) (evs : list event).

Lemma serve_cons rq rs w :
  serve (rq :: rs) w =
  match get_video_info_and_transcribe (req_url rq) (req_size rq)
          (req_language rq) w with
  | (Ret out, w1) =>
      match serve rs w1 with
      | (Ret outs, w2) => (Ret (out :: outs), w2)
      | (Raise e, w2) => (Raise e, w2)
      end
  | (Raise e, w1) => (Raise e, w1)
  end.
Proof. reflexivity. Qed.

(** One run and the loads of size [s]. *)
Lemma run_loads s url size language w r w' :
  get_video_info_and_transcribe url size language w = (r, w') →
  ∃ out evs,
    r = Ret out ∧ log w' = log w ++ evs ∧ models w ⊆ models w' ∧
    count_events (is_load_of s) evs ≤ 1 ∧
    (is_Some (models w !! s) → count_events (is_load_of s) evs = 0) ∧
    ((∀ fs, ∃ m fs', load_model s fs = (Ret m, fs')) →
     count_events (is_load_of s) evs = 0 ∨ is_Some (models w' !! s)).
Proof.
  intros H. path_cases H.
  1-3: eexists _, _; (split; [reflexivity|]);
       (split; [cbn; rewrite <- ?app_assoc; reflexivity|]);
       (split; [done|]); unfold count_events; cbn;
       (split; [lia|]); split; auto.
  destruct (transcribe_audio_loads s _ _ _ _ _ _ Ht)
    as (evs & Hl & Hle & Hz & Hother).
  pose proof (transcribe_audio_cache _ _ _ _ _ _ Ht) as Hsub.
  cbn [models fetched emit set_files] in Hsub, Hz.
  eexists _, _. split; [reflexivity|].
  split; [by rewrite finished_log_exact, Hl, fetched_log, <- !app_assoc|].
  rewrite finished_models. split; [done|].
  assert (∀ l1 l2 : list event,
            count_events (is_load_of s) l1 = 0 →
            count_events (is_load_of s) l2 = 0 →
            count_events (is_load_of s) (l1 ++ evs ++ l2) =
            count_events (is_load_of s) evs) as Hmid.
  { intros l1 l2 H1 H2. rewrite !count_events_app. lia. }
  rewrite Hmid; [|done|by destruct (files (written t0 w2) !! abspath p)].
  split; [done|]. split; [done|].
  intros Hok. destruct (decide (size = s)) as [->|Hne].
  - right. by eapply transcribe_audio_caches.
  - left. by apply Hother.
Qed.

Lemma serve_cached s rs w r w' :
  serve rs w = (r, w') →
  ∃ outs evs,
    r = Ret outs ∧ List.length outs = List.length rs ∧
    log w' = log w ++ evs ∧ models w ⊆ models w' ∧
    (is_Some (models w !! s) → count_events (is_load_of s) evs = 0).
Proof.
  revert w r w'. induction rs as [|rq rs IH]; intros w r w' H.
  - injection H as <- <-. exists [], []. by rewrite app_nil_r.
  - rewrite serve_cons in H.
    destruct (get_video_info_and_transcribe _ _ _ w) as [r1 w1] eqn:H1.
    destruct (run_loads s _ _ _ _ _ _ H1)
      as (out & evs1 & -> & Hl1 & Hsub1 & _ & Hz1 & _).
    destruct (serve rs w1) as [r2 w2] eqn:H2.
    destruct (IH _ _ _ H2) as (outs & evs2 & -> & Hlen & Hl2 & Hsub2 & Hz2).
    injection H as <- <-.
    exists (out :: outs), (evs1 ++ evs2).
    split; [done|]. split; [cbn; by rewrite Hlen|].
    split; [by rewrite Hl2, Hl1, app_assoc|]. split; [by etrans|].
    intros Hs. rewrite count_events_app, Hz1, Hz2; [done| |done].
    by eapply lookup_weaken_is_Some.
Qed.

Lemma serve_at_most_one_load s rs w :
  (∀ fs, ∃ m fs', load_model s fs = (Ret m, fs')) →
  ∃ outs w',
    serve rs w = (Ret outs, w') ∧
    count_events (is_load_of s) (new_events w w') ≤ 1.
Proof.
  intros Hok. revert w. induction rs as [|rq rs IH]; intros w.
  - exists [], w. split; [done|]. unfold new_events. rewrite drop_all.
    cbn. lia.
  - rewrite serve_cons.
    destruct (get_video_info_and_transcribe _ _ _ w) as [r1 w1] eqn:H1.
    destruct (run_loads s _ _ _ _ _ _ H1)
      as (out & evs1 & -> & Hl1 & Hsub1 & Hle1 & Hz1 & Hor1).
    destruct (IH w1) as (outs & w2 & H2 & Hle2).
    rewrite H2.
    destruct (serve_cached s _ _ _ _ H2) as (? & evs2 & _ & _ & Hl2 & _ & Hz2).
    rewrite (new_events_app w1 w2 evs2 Hl2) in Hle2.
    exists (out :: outs), w2. split; [done|].
    rewrite (new_events_app w w2 (evs1 ++ evs2))
      by (by rewrite Hl2, Hl1, app_assoc).
    rewrite count_events_app.
    destruct (Hor1 Hok) as [->|Hc]; [lia|]. rewrite (Hz2 Hc). lia.
Qed.

(** X14.  Over a whole session no exception reaches the interface and each
    press gets its tuple; the cache only grows; a model size that was cached
    before the session is never loaded in it; and a model size whose load
    does not fault is loaded at most once, whatever the URLs, sizes and
    failures of the presses. *)
Theorem session_loads_a_model_once s rs w :
  ∃ outs w',
    serve rs w = (Ret outs, w') ∧
    List.length outs = List.length rs ∧
    models w ⊆ models w' ∧
    (is_Some (models w !! s) →
     count_events (is_load_of s) (new_events w w') = 0) ∧
    ((∀ fs, ∃ m fs', load_model s fs = (Ret m, fs')) →
     count_events (is_load_of s) (new_events w w') ≤ 1).
Proof.
  destruct (serve rs w) as [r w'] eqn:H.
  destruct (serve_cached s _ _ _ _ H) as (outs & evs & -> & Hlen & Hl & Hsub & Hz).
  exists outs, w'. split; [done|]. split; [done|]. split; [done|].
  split; [by rewrite (new_events_app _ _ _ Hl)|].
  intros Hok.
  destruct (serve_at_most_one_load s rs w Hok) as (outs' & w'' & H' & Hle).
  rewrite H in H'. by injection H' as _ <-.
Qed.

End Sessions.

(** ** What flows from one collaborator to the next *)

Section Flow.
Context `{C : Collaborators}.

Implicit Types (w : world) (fs : files_t) (url size p t s : string)
  (language title thumb : pyval) (evs : list event).

(** Every event of a call of [transcribe_audio], by kind. *)
Lemma transcribe_audio_shape p size language w r w' :
  transcribe_audio p size language w = (r, w') →
  ∃ evs,
    log w' = log w ++ evs ∧
    count_events is_print evs ≤ 1 ∧
    Forall (λ e,
      e = EvLoadModel size ∨
      (∃ m, e = EvTranscribe m p
                  (if truthy language then <["language" := language]> ∅ else ∅)) ∨
      (∃ x, e = EvPrint ("Error during transcription: " +:+ exn_str x) ∧
            r = Ret "An error occurred during transcription.")) evs.
Proof.
  intros H. rewrite transcribe_audio_eq in H.
  ta_cases H; cbn; rewrite <- ?app_assoc;
    (eexists; split; [reflexivity|]);
    (split; [unfold count_events; cbn; lia|]);
    repeat first
      [ apply Forall_nil_2
      | apply Forall_cons_2;
        [ first [ by left
                | by right; left; eexists
                | right; right; by eexists (KeyError "text")
                | right; right; by eexists ] | ] ].
Qed.

(** X15.  The Transcriber works on what the Fetcher returned and on the
    arguments of the run: every model invocation of a run is on the audio
    path the Fetcher named, with the language as only option if a language
    was supplied and no option otherwise, and every load is for the size
    that was asked. *)
Theorem transcriber_gets_fetched_audio url size language w r w' :
  get_video_info_and_transcribe url size language w = (r, w') →
  (∀ s, EvLoadModel s ∈ new_events w w' → s = size) ∧
  (∀ m p options,
     EvTranscribe m p options ∈ new_events w w' →
     (∃ title thumb fs,
        download_mp3_yt_dlp url (files w) = (Ret (PStr p, title, thumb), fs)) ∧
     ((language_supplied language ∧ options = {["language" := language]}) ∨
      (¬ language_supplied language ∧ options = ∅))).
Proof.
  intros H. path_cases H.
  1-3: short_events; split; intros; rewrite ?elem_of_cons, ?elem_of_nil in *;
       destruct_or!; done.
  destruct (transcribe_audio_shape _ _ _ _ _ _ Ht) as (evs & Hl & _ & Hall).
  rewrite (fetched_run_events _ _ _ _ _ _ _ Hl).
  rewrite Forall_forall in Hall.
  assert (∀ e, is_transcriber_call e = true →
            e ∈ [EvProgress 0 "Validating URL..."; EvDownload url;
                 EvProgress 50 "Transcribing audio..."] ++ evs ++
                EvWrite transcription_file t0 ::
                  match files (written t0 w2) !! abspath p with
                  | Some _ => [EvRemove p]
                  | None => []
                  end ++ [EvProgress 100 "Done"] →
            e ∈ evs) as Hmid.
  { intros e0 He Hin. rewrite !elem_of_app, !elem_of_cons, elem_of_nil in Hin.
    destruct Hin as [Hin|[Hin|[Hin|Hin]]]; [|done| |].
    - destruct_or!; try done; by subst.
    - by subst.
    - destruct (files (written t0 w2) !! abspath p);
        rewrite ?elem_of_app, ?elem_of_cons, ?elem_of_nil in Hin;
        destruct_or!; try done; by subst. }
  split.
  - intros s0 Hin. apply Hmid in Hin; [|done].
    destruct (Hall _ Hin) as [[= ->]|[(m & [=])|(x & [=] & _)]]. done.
  - intros m p' o Hin. apply Hmid in Hin; [|done].
    destruct (Hall _ Hin) as [[=]|[(m' & [= -> -> ->])|(x & [=] & _)]].
    split; [eauto|]. apply options_by_language.
Qed.

(** X16.  A run prints at most one line, and only for a fault: a printed
    line is the diagnostic of an exception the Fetcher raised, or the
    diagnostic of a fault of the Transcriber, and then the transcription
    returned is the fixed failure string. *)
Theorem at_most_one_diagnostic url size language w :
  ∃ title thumb text file w',
    get_video_info_and_transcribe url size language w =
      (Ret (title, thumb, text, file), w') ∧
    count_events is_print (new_events w w') ≤ 1 ∧
    (∀ line,
       EvPrint line ∈ new_events w w' →
       (∃ e fs,
          download_mp3_yt_dlp url (files w) = (Raise e, fs) ∧
          line = "Error downloading video info: " +:+ exn_str e) ∨
       (∃ e,
          line = "Error during transcription: " +:+ exn_str e ∧
          text = PStr "An error occurred during transcription.")).
Proof.
  destruct (get_video_info_and_transcribe url size language w) as [r w'] eqn:H.
  path_cases H; eexists _, _, _, _, _; (split; [reflexivity|]).
  1-3: short_events; (split; [unfold count_events; cbn; lia|]);
       intros line Hin; rewrite ?elem_of_cons, ?elem_of_nil in Hin;
       destruct_or!; try done.
  - injection Hin as ->. left. eauto.
  - destruct (transcribe_audio_shape _ _ _ _ _ _ Ht) as (evs & Hl & Hle & Hall).
    rewrite (fetched_run_events _ _ _ _ _ _ _ Hl).
    rewrite Forall_forall in Hall. split.
    + rewrite !count_events_app, count_events_cons, ?count_events_app.
      destruct (files (written t0 w2) !! abspath p); unfold count_events in *; cbn; lia.
    + intros line Hin. rewrite !elem_of_app, !elem_of_cons, elem_of_nil in Hin.
      destruct Hin as [Hin|[Hin|[Hin|Hin]]]; [|right|done|].
      * destruct_or!; done.
      * destruct (Hall _ Hin) as [[=]|[(m & [=])|(x & [= ->] & [= ->])]].
        eauto.
      * destruct (files (written t0 w2) !! abspath p);
          rewrite ?elem_of_app, ?elem_of_cons, ?elem_of_nil in Hin;
          destruct_or!; done.
Qed.

End Flow.

(** ** Concrete runs for the further properties *)

Lemma failed_run_leaves_no_trace_witness :
  let w' := (get_video_info_and_transcribe (C := no_network) rick_url "base"
               PNone boot).2 in
  PStr "An error occurred while downloading the video."
    ∈ [PStr "Invalid YouTube URL."; PStr "Failed to download audio.";
       PStr "An error occurred while downloading the video."] ∧
  PNone = PNone ∧ PStr "" = PStr "" ∧
  count_events is_write (new_events boot w') = 0 ∧
  count_events is_remove (new_events boot w') = 0 ∧
  count_events is_transcriber_call (new_events boot w') = 0 ∧
  models w' = models (C := no_network) boot ∧
  (fetcher_spares_output (C := no_network) →
   files w' !! stub_abspath "transcription.txt" =
     files (C := no_network) boot !! stub_abspath "transcription.txt").
Proof.
  apply (failed_run_leaves_no_trace (C := no_network) rick_url "base" PNone boot).
  reflexivity.
Defined.

Lemma disk_footprint_witness :
  let w' := (get_video_info_and_transcribe (C := happy) rick_url "base"
               PNone boot).2 in
  count_events is_write (new_events boot w') ≤ 1 ∧
  count_events is_remove (new_events boot w') ≤ 1 ∧
  (∀ path data,
     EvWrite path data ∈ new_events boot w' →
     path = "transcription.txt" ∧ PStr "hello world" = PStr data ∧
     PStr transcription_file = PStr "transcription.txt") ∧
  (∀ path,
     EvRemove path ∈ new_events boot w' →
     ∃ fs, download_mp3_yt_dlp (Collaborators := happy) rick_url
             (files (C := happy) boot) =
           (Ret (PStr path, rick_title, rick_thumbnail), fs)).
Proof.
  apply (disk_footprint (C := happy) rick_url "base" PNone boot).
  reflexivity.
Defined.

(** The run on the stubs writes the output and removes the audio, in that
    order. *)
Example happy_run_events :
  new_events boot
    (get_video_info_and_transcribe (C := happy) rick_url "base" PNone boot).2 =
  [EvProgress 0 "Validating URL..."; EvDownload rick_url;
   EvProgress 50 "Transcribing audio..."; EvLoadModel "base";
   EvTranscribe (C := happy) "whisper-base" "audio.mp3" ∅;
   EvWrite "transcription.txt" "hello world"; EvRemove "audio.mp3";
   EvProgress 100 "Done"].
Proof. reflexivity. Qed.



Lemma cache_after_call_witness :
  models (transcribe_audio (C := garbled) "audio.mp3" "base" PNone boot).2 =
  <["base" := "whisper-base"]> (models (C := garbled) boot) ∧
  (transcribe_audio (C := garbled) "audio.mp3" "base" PNone boot).1 =
  Ret "An error occurred during transcription.".
Proof.
  split; [|reflexivity].
  apply (proj1 (proj2 (proj2 (cache_after_call (C := garbled) "audio.mp3"
                                "base" PNone boot _ _ (surjective_pairing _))))
           "whisper-base" ∅); reflexivity.
Defined.

Lemma invoked_model_is_the_cached_one_witness :
  models (transcribe_audio (C := happy) "audio.mp3" "base" PNone boot).2 !! "base"
  = Some "whisper-base".
Proof.
  apply (invoked_model_is_the_cached_one (C := happy) "audio.mp3" "base" PNone
           boot _ _ (surjective_pairing _) "whisper-base" "audio.mp3" ∅).
  apply list_elem_of_further, list_elem_of_here.
Defined.

Lemma session_loads_a_model_once_witness :
  ∃ outs (w' : @world happy),
    serve (C := happy)
      [Request rick_url "base" PNone;
       Request "https://vimeo.com/76979871" "base" PNone;
       Request rick_url "base" (PStr "en")] boot = (Ret outs, w') ∧
    List.length outs = 3 ∧
    models (C := happy) boot ⊆ models w' ∧
    count_events (is_load_of "base") (new_events boot w') ≤ 1.
Proof.
  destruct (session_loads_a_model_once (C := happy) "base"
              [Request rick_url "base" PNone;
               Request "https://vimeo.com/76979871" "base" PNone;
               Request rick_url "base" (PStr "en")] boot)
    as (outs & w' & H1 & H2 & H3 & _ & H5).
  exists outs, w'. split; [exact H1|]. split; [exact H2|]. split; [exact H3|].
  apply H5. intros fs. by exists "whisper-base", fs.
Defined.

(** A session whose loader always faults: every press still gets its tuple,
    with the failure string as transcription, and nothing is cached. *)
Example session_with_faulting_loader :
  serve (C := no_weights)
    [Request rick_url "base" PNone; Request rick_url "tiny" PNone] boot
  = (Ret [(rick_title, rick_thumbnail,
           PStr "An error occurred during transcription.",
           PStr "transcription.txt");
          (rick_title, rick_thumbnail,
           PStr "An error occurred during transcription.",
           PStr "transcription.txt")],
     (serve (C := no_weights)
        [Request rick_url "base" PNone; Request rick_url "tiny" PNone] boot).2) ∧
  models (serve (C := no_weights)
            [Request rick_url "base" PNone; Request rick_url "tiny" PNone]
            boot).2 = ∅.
Proof. split; reflexivity. Qed.

(** The same session on the stubs: one load, the second press rejected, the
    third served from the cache. *)
Example session_events :
  List.filter (λ e, is_transcriber_call e)
    (new_events boot
       (serve (C := happy)
          [Request rick_url "base" PNone;
           Request "https://vimeo.com/76979871" "base" PNone;
           Request rick_url "base" (PStr "en")] boot).2) =
  [EvLoadModel "base";
   EvTranscribe (C := happy) "whisper-base" "audio.mp3" ∅;
   EvTranscribe (C := happy) "whisper-base" "audio.mp3"
     {["language" := PStr "en"]}].
Proof. reflexivity. Qed.

Lemma transcriber_gets_fetched_audio_witness :
  let w' := (get_video_info_and_transcribe (C := happy) rick_url "base"
               (PStr "en") boot).2 in
  (∀ s, EvLoadModel s ∈ new_events boot w' → s = "base") ∧
  (∀ m p options,
     EvTranscribe m p options ∈ new_events boot w' →
     (∃ title thumb fs,
        download_mp3_yt_dlp (Collaborators := happy) rick_url
          (files (C := happy) boot) = (Ret (PStr p, title, thumb), fs)) ∧
     ((language_supplied (PStr "en") ∧ options = {["language" := PStr "en"]}) ∨
      (¬ language_supplied (PStr "en") ∧ options = ∅))).
Proof.
  apply (transcriber_gets_fetched_audio (C := happy) rick_url "base" (PStr "en")
           boot _ _ (surjective_pairing _)).
Defined.
